(** * Permissio Node SDK: the client-side permission check

    A shallow embedding of [src/permissio.ts] and [src/config.ts]:
    the role closure ([getRolePermissions]), the permission match of
    [checkWithDetails], the resource parsing helpers, the mutable scope
    configuration and the scope initialisation of the [Permissio] class.

    Conventions.
    - A JavaScript [string] is a [string]; an optional field [f?: T] is an
      [option T]; [x || []] on an optional array is [default [] x].
    - [Map<string, IRoleRead>] is a [gmap string IRoleRead.t]; the [Set<string>]
      of visited role keys is a [gset string].
    - Arrays are lists; [[...new Set(xs)]] is [dedupe xs], which keeps the
      first occurrence of every element, in order, as a JavaScript [Set] does.
    - Console output under [config.debug] is not modelled. *)

From Stdlib Require Import Ascii String.
From stdpp Require Import gmap strings list.

Open Scope string_scope.
Open Scope list_scope.
Open Scope nat_scope.

(** ** JavaScript helpers *)

Module JS.

(** [Array.prototype.includes] on an array of strings. *)
Definition includes (xs : list string) (x : string) : bool :=
  bool_decide (x ∈ xs).

(** Inserting the elements of [xs], left to right, into a [Set] that already
    holds [seen]; the result lists the elements that were new. *)
Fixpoint dedupe_from (seen xs : list string) : list string :=
  match xs with
  | [] => []
  | x :: xs' =>
      if includes seen x then dedupe_from seen xs'
      else x :: dedupe_from (x :: seen) xs'
  end.

(** [[...new Set(xs)]] *)
Definition dedupe (xs : list string) : list string := dedupe_from [] xs.

(** [Array.prototype.join] *)
Fixpoint join (sep : string) (xs : list string) : string :=
  match xs with
  | [] => EmptyString
  | [x] => x
  | x :: xs' => x +:+ sep +:+ join sep xs'
  end.

(** [s.split(sep)] for a one-character separator: never empty, and
    the split of the empty string is the empty string alone. *)
Fixpoint split (sep : Ascii.ascii) (s : string) : list string :=
  match s with
  | EmptyString => [EmptyString]
  | String c s' =>
      if bool_decide (c = sep) then EmptyString :: split sep s'
      else match split sep s' with
           | [] => [String c EmptyString]
           | part :: parts => String c part :: parts
           end
  end.

(** [s.includes(c)] for a one-character needle. *)
Fixpoint contains (c : Ascii.ascii) (s : string) : bool :=
  match s with
  | EmptyString => false
  | String c' s' => bool_decide (c' = c) || contains c s'
  end.

(** Truthiness of an optional string: [undefined] and the empty string are falsy. *)
Definition truthy (o : option string) : bool :=
  match o with
  | Some s => negb (bool_decide (s = EmptyString))
  | None => false
  end.

End JS.

(** ** Roles *)

(** [IRoleRead], restricted to the fields the check reads
    ([id], [name], [description], [attributes] and the timestamps are never
    inspected). *)
Module IRoleRead.
Record t := mk {
  key : string;
  permissions : option (list string);
  extends : option (list string);
}.
End IRoleRead.

(** What one call of [getRolePermissions] hands back: the returned array,
    the [visited] set as the call leaves it (the set is shared and mutated),
    and the role keys for which the body ran past the [visited.has] guard,
    in the order they were added to [visited]. The last component is an
    observation of the run, it does not influence the first two. *)
Definition Closure : Type := list string * gset string * list string.

(** The [for (const parentRoleKey of role.extends)] loop, lines 308-315;
    [rec] is the recursive call. *)
Fixpoint forParents (rec : string → gset string → option Closure)
    (parents : list string) (permissions : list string)
    (visited : gset string) (expanded : list string) : option Closure :=
  match parents with
  | [] => Some (permissions, visited, expanded)
  | parentRoleKey :: rest =>
      '(parentPermissions, visited', sub) ← rec parentRoleKey visited;
      forParents rec rest (permissions ++ parentPermissions) visited'
        (expanded ++ sub)
  end.

(** [getRolePermissions], lines 288-319. The recursion of the source is
    bounded here by [fuel]; [None] means the fuel ran out.
    The guard [role.extends && role.extends.length > 0] only skips a loop
    over nothing, so the loop runs over [default [] (extends role)]. *)
Fixpoint getRolePermissions (fuel : nat) (roleKey : string)
    (rolesMap : gmap string IRoleRead.t) (visited : gset string)
    : option Closure :=
  match fuel with
  | O => None
  | S fuel' =>
      if decide (roleKey ∈ visited) then Some ([], visited, [])
      else
        let visited1 := {[roleKey]} ∪ visited in
        match rolesMap !! roleKey with
        | None => Some ([], visited1, [roleKey])
        | Some role =>
            '(permissions', visited', expanded) ←
              forParents (λ k v, getRolePermissions fuel' k rolesMap v)
                (default [] (IRoleRead.extends role))
                (default [] (IRoleRead.permissions role)) visited1 [roleKey];
            Some (JS.dedupe permissions', visited', expanded)
        end
  end.

(** The fuel that every call from a fresh [visited] set can need: one unit
    per role of the table plus one (see [getRolePermissions_enough_fuel]). *)
Definition closureFuel (rolesMap : gmap string IRoleRead.t) : nat :=
  S (size rolesMap).

(** [this.getRolePermissions(roleKey, rolesMap, new Set())], as lines 233 and
    404 call it. *)
Definition rolePermissions (roleKey : string)
    (rolesMap : gmap string IRoleRead.t) : list string :=
  match getRolePermissions (closureFuel rolesMap) roleKey rolesMap ∅ with
  | Some (permissions', _, _) => permissions'
  | None => []
  end.

(** ** The permission match *)

(** The condition of lines 244-248, over the three values it reads. *)
Definition grants (permissions : list string)
    (requiredPermission resourceType : string) : bool :=
  JS.includes permissions requiredPermission
  || JS.includes permissions (resourceType +:+ ":*")
  || JS.includes permissions "*:*".

(** ** Check requests and decisions *)

Module ICheckUser.
Record t := mk { key : string }.
End ICheckUser.

Module ICheckResource.
Record t := mk {
  type : string;
  key : option string;
  tenant : option string;
}.
End ICheckResource.

(** [string | ICheckUser] *)
Inductive UserArg :=
| UserString (s : string)
| UserObject (u : ICheckUser.t).

(** [string | ICheckResource] *)
Inductive ResourceArg :=
| ResourceString (s : string)
| ResourceObject (r : ICheckResource.t).

(** [ICheckRequest]; the free-form [context] is never read. *)
Module ICheckRequest.
Record t := mk {
  user : UserArg;
  action : string;
  resource : ResourceArg;
  tenant : option string;
}.
End ICheckRequest.

(** The [debug] object of a decision. The interface declares its three
    fields optional; the only literal that builds one (lines 268-272) sets
    all of them. *)
Module Debug.
Record t := mk {
  matchedRoles : list string;
  matchedPermissions : list string;
  evaluationTime : Z;
}.
End Debug.

Module ICheckResponse.
Record t := mk {
  allowed : bool;
  reason : option string;
  debug : option Debug.t;
}.
End ICheckResponse.

(** ** Private helpers of the client, lines 631-660 *)

Definition getUserKey (user : UserArg) : string :=
  match user with
  | UserString s => s
  | UserObject u => ICheckUser.key u
  end.

Definition getResourceKey (resource : ResourceArg) : string :=
  match resource with
  | ResourceString s => s
  | ResourceObject r =>
      match ICheckResource.key r with
      | Some k =>
          if bool_decide (k = EmptyString) then ICheckResource.type r
          else ICheckResource.type r +:+ ":" +:+ k
      | None => ICheckResource.type r
      end
  end.

(** [resource.split(":")[0]]: [JS.split] never returns the empty array, so
    the default below is never taken. *)
Definition extractResourceType (resource : ResourceArg) : string :=
  match resource with
  | ResourceString s =>
      if JS.contains ":"%char s then default EmptyString (JS.split ":"%char s !! 0%nat) else s
  | ResourceObject r => ICheckResource.type r
  end.

(** [undefined] is [None]. *)
Definition extractResourceInstanceKey (resource : ResourceArg)
    : option string :=
  match resource with
  | ResourceString s =>
      let parts := JS.split ":"%char s in
      if bool_decide (1 < length parts) then parts !! 1%nat else None
  | ResourceObject r => ICheckResource.key r
  end.

(** ** Configuration, [src/config.ts] *)

(** [MutableConfig] with all defaults applied. *)
Module MutableConfig.
Record t := mk {
  token : string;
  apiUrl : string;
  projectId : option string;
  environmentId : option string;
  debug : bool;
  timeout : Z;
  customHeaders : gmap string string;
  retryAttempts : nat;
  throwOnError : bool;
}.

Definition setProjectId (v : option string) (c : t) : t :=
  mk (token c) (apiUrl c) v (environmentId c) (debug c) (timeout c)
     (customHeaders c) (retryAttempts c) (throwOnError c).

Definition setEnvironmentId (v : option string) (c : t) : t :=
  mk (token c) (apiUrl c) (projectId c) v (debug c) (timeout c)
     (customHeaders c) (retryAttempts c) (throwOnError c).

(** [updateScope(projectId?, environmentId?)], lines 767-774 of the
    listing. The arguments are primed to tell them from the fields. *)
Definition updateScope (projectId' environmentId' : option string)
    (c : t) : t :=
  let c1 :=
    if JS.truthy projectId' && negb (JS.truthy (projectId c))
    then setProjectId projectId' c else c in
  if JS.truthy environmentId' && negb (JS.truthy (environmentId c1))
  then setEnvironmentId environmentId' c1 else c1.

(** [hasScope()], lines 779-781. *)
Definition hasScope (c : t) : bool :=
  JS.truthy (projectId c) && JS.truthy (environmentId c).
End MutableConfig.

(** [IApiKeyScope], the body of the scope endpoint's answer. *)
Module IApiKeyScope.
Record t := mk {
  organization_id : string;
  project_id : option string;
  environment_id : option string;
}.
End IApiKeyScope.

(** ** Thrown values and the outside world *)

(** A thrown value, known by what a template literal makes of it. *)
Record Thrown := { rendering : string }.

Global Instance Thrown_eq_dec : EqDecision Thrown.
Proof. solve_decision. Defined.

(** [new Error(message)] for a non-empty message. *)
Definition newError (message : string) : Thrown :=
  {| rendering := "Error: " +:+ message |}.

(** [IRoleAssignmentRead], without [id] and the timestamps. *)
Module IRoleAssignmentRead.
Record t := mk {
  user : string;
  role : string;
  tenant : option string;
  resource : option string;
  resourceInstance : option string;
}.
End IRoleAssignmentRead.

(** The list answers. [data] is declared mandatory, but lines 192 and 211
    guard against its absence, hence the [option]. The paging fields are
    never read. *)
Module IRoleAssignmentList.
Record t := mk { data : option (list IRoleAssignmentRead.t) }.
End IRoleAssignmentList.

Module IRoleList.
Record t := mk { data : option (list IRoleRead.t) }.
End IRoleList.

(** The requests the client sends out. *)
Inductive Call :=
| GetApiKeyScope
| ListRoleAssignments (user : string) (tenant : option string)
| ListRoles (perPage : nat).

Global Instance Call_eq_dec : EqDecision Call.
Proof. solve_decision. Defined.

(** How the three collaborators answer: each either throws or hands back
    its payload. *)
Record World := {
  apiKeyScope : Thrown + IApiKeyScope.t;
  roleAssignmentsList :
    string → option string → Thrown + IRoleAssignmentList.t;
  rolesList : nat → Thrown + IRoleList.t;
}.

(** ** The client object *)

(** A promise is known by its reference. *)
Definition PromiseRef := nat.

(** The mutable fields of a [Permissio] instance (the [api] clients share
    [config] and hold no state of their own). *)
Module Permissio.
Record t := mk {
  config : MutableConfig.t;
  scopeInitialized : bool;
  scopeInitPromise : option PromiseRef;
}.

Definition setConfig (c : MutableConfig.t) (this : t) : t :=
  mk c (scopeInitialized this) (scopeInitPromise this).
Definition setScopeInitialized (b : bool) (this : t) : t :=
  mk (config this) b (scopeInitPromise this).
Definition setScopeInitPromise (p : option PromiseRef) (this : t) : t :=
  mk (config this) (scopeInitialized this) p.

(** The instance the constructor leaves behind, lines 85-100. *)
Definition new (c : MutableConfig.t) : t := mk c false None.
End Permissio.

(** ** Scope initialisation, lines 524-582, by synchronous stretches *)

(** What [ensureScope] does up to its first suspension, lines 526-535. *)
Inductive Entry :=
| EntryReturn                 (* line 527 *)
| EntryJoin (p : PromiseRef)  (* line 532 *)
| EntryFetch.                 (* line 535 *)

Definition ensureScope_entry (this : Permissio.t) : Entry :=
  if Permissio.scopeInitialized this
     || MutableConfig.hasScope (Permissio.config this)
  then EntryReturn
  else match Permissio.scopeInitPromise this with
       | Some p => EntryJoin p
       | None => EntryFetch
       end.

Definition scopeFailureMessage (error : Thrown) : string :=
  "Permissio.io SDK: Failed to fetch API key scope. "
  +:+ "Either provide projectId and environmentId in config, "
  +:+ "or ensure the API key has valid scope. "
  +:+ "Error: " +:+ rendering error.

(** [fetchAndSetScope] from the moment the request settles, lines 559-581:
    what its promise settles to, and the instance afterwards. *)
Definition fetchAndSetScope_settle (response : Thrown + IApiKeyScope.t)
    (this : Permissio.t) : (Thrown + unit) * Permissio.t :=
  match response with
  | inr scope =>
      let config' :=
        MutableConfig.updateScope (IApiKeyScope.project_id scope)
          (IApiKeyScope.environment_id scope) (Permissio.config this) in
      (inr tt,
       Permissio.setScopeInitialized true (Permissio.setConfig config' this))
  | inl error =>
      if negb (MutableConfig.hasScope (Permissio.config this))
      then (inl (newError (scopeFailureMessage error)), this)
      else (inr tt, Permissio.setScopeInitialized true this)
  end.

(** The [finally] block of [ensureScope], line 539. *)
Definition ensureScope_finally (this : Permissio.t) : Permissio.t :=
  Permissio.setScopeInitPromise None this.

(** ** Asynchronous methods, run alone *)

(** How a call ends when no other call of the instance runs beside it.
    [Awaiting p]: the call is suspended on the promise [p] of a scope
    initialisation that some earlier call started and that nothing in this
    run settles. *)
Inductive Outcome (A : Type) :=
| Returned (a : A)
| Threw (error : Thrown)
| Awaiting (p : PromiseRef).
Arguments Returned {A} a.
Arguments Threw {A} error.
Arguments Awaiting {A} p.

(** The outcome, the instance as the call leaves it, and the requests sent
    so far, oldest first. *)
Record Run (A : Type) := {
  outcome : Outcome A;
  instance : Permissio.t;
  sent : list Call;
}.
Arguments outcome {A} r.
Arguments instance {A} r.
Arguments sent {A} r.

Definition Async (A : Type) : Type :=
  World → Permissio.t → list Call → Run A.

Definition ret {A} (a : A) : Async A :=
  λ _ this calls, {| outcome := Returned a; instance := this; sent := calls |}.

Definition throw {A} (error : Thrown) : Async A :=
  λ _ this calls,
    {| outcome := Threw error; instance := this; sent := calls |}.

Definition bind {A B} (m : Async A) (k : A → Async B) : Async B :=
  λ w this calls,
    let r := m w this calls in
    match outcome r with
    | Returned a => k a w (instance r) (sent r)
    | Threw error =>
        {| outcome := Threw error; instance := instance r; sent := sent r |}
    | Awaiting p =>
        {| outcome := Awaiting p; instance := instance r; sent := sent r |}
    end.

(** [try { m } catch (error) { handler }] *)
Definition tryCatch {A} (m : Async A) (handler : Thrown → Async A)
    : Async A :=
  λ w this calls,
    let r := m w this calls in
    match outcome r with
    | Threw error => handler error w (instance r) (sent r)
    | _ => r
    end.

Notation "x ⇐ m ;; k" := (bind m (λ x, k))
  (at level 100, m at next level, right associativity,
   format "'[v' x  ⇐  m  ;;  '/' k ']'").

(** Reading [this.config]. *)
Definition getConfig : Async MutableConfig.t :=
  λ _ this calls,
    {| outcome := Returned (Permissio.config this);
       instance := this; sent := calls |}.

(** An awaited request: it is recorded, and the world answers it. *)
Definition send {A} (call : Call) (answer : World → Thrown + A)
    : Async A :=
  λ w this calls,
    {| outcome := match answer w with
                  | inl error => Threw error
                  | inr a => Returned a
                  end;
       instance := this;
       sent := calls ++ [call] |}.

(** [this.api.roleAssignments.list({ user, tenant })] *)
Definition roleAssignments_list (user : string) (tenant : option string)
    : Async IRoleAssignmentList.t :=
  send (ListRoleAssignments user tenant)
    (λ w, roleAssignmentsList w user tenant).

(** [this.api.roles.list({ perPage })] *)
Definition roles_list (perPage : nat) : Async IRoleList.t :=
  send (ListRoles perPage) (λ w, rolesList w perPage).

(** [ensureScope], lines 524-541, for a call that runs alone: the request
    of [fetchAndSetScope] is sent and answered, the promise settles, the
    [finally] block runs. The promise stored at line 535 is cleared again
    at line 539 with no other call in between, so only the clearing shows. *)
Definition ensureScope : Async unit :=
  λ w this calls,
    match ensureScope_entry this with
    | EntryReturn =>
        {| outcome := Returned tt; instance := this; sent := calls |}
    | EntryJoin p =>
        {| outcome := Awaiting p; instance := this; sent := calls |}
    | EntryFetch =>
        let '(settled, this') :=
          fetchAndSetScope_settle (apiKeyScope w) this in
        {| outcome := match settled with
                      | inr _ => Returned tt
                      | inl error => Threw error
                      end;
           instance := ensureScope_finally this';
           sent := calls ++ [GetApiKeyScope] |}
    end.

(** ** The decision engine *)

(** The [rolesMap.set] loop, lines 210-213: a later role of the same key
    replaces an earlier one. *)
Definition buildRolesMap (roles : list IRoleRead.t)
    : gmap string IRoleRead.t :=
  foldl (λ rolesMap role, <[IRoleRead.key role := role]> rolesMap) ∅ roles.

(** The loop of lines 232-252 over the assigned role keys. *)
Fixpoint matchRoles (roleKeys : list string)
    (rolesMap : gmap string IRoleRead.t)
    (requiredPermission resourceType : string)
    (matchedRoles matchedPermissions : list string)
    : list string * list string :=
  match roleKeys with
  | [] => (matchedRoles, matchedPermissions)
  | roleKey :: rest =>
      let permissions := rolePermissions roleKey rolesMap in
      if grants permissions requiredPermission resourceType
      then matchRoles rest rolesMap requiredPermission resourceType
             (matchedRoles ++ [roleKey])
             (matchedPermissions ++ [requiredPermission])
      else matchRoles rest rolesMap requiredPermission resourceType
             matchedRoles matchedPermissions
  end.

(** The test of line 192. *)
Definition noAssignments (response : IRoleAssignmentList.t) : bool :=
  match IRoleAssignmentList.data response with
  | None => true
  | Some data => bool_decide (length data = 0%nat)
  end.

(** The body of the [try] block, lines 163-273. *)
Definition checkBody (request : ICheckRequest.t) : Async ICheckResponse.t :=
  let userKey := getUserKey (ICheckRequest.user request) in
  let resourceType := extractResourceType (ICheckRequest.resource request) in
  let resourceInstanceKey :=
    extractResourceInstanceKey (ICheckRequest.resource request) in
  let requiredPermission :=
    resourceType +:+ ":" +:+ ICheckRequest.action request in
  assignmentsResponse ⇐
    roleAssignments_list userKey (ICheckRequest.tenant request) ;;
  if noAssignments assignmentsResponse then
    ret {| ICheckResponse.allowed := false;
           ICheckResponse.reason :=
             Some ("User " +:+ userKey +:+ " has no role assignments");
           ICheckResponse.debug := None |}
  else
    let roleKeys :=
      JS.dedupe
        (IRoleAssignmentRead.role
           <$> default [] (IRoleAssignmentList.data assignmentsResponse)) in
    rolesResponse ⇐ roles_list 100 ;;
    let rolesMap :=
      buildRolesMap (default [] (IRoleList.data rolesResponse)) in
    let '(matchedRoles, matchedPermissions) :=
      matchRoles roleKeys rolesMap requiredPermission resourceType [] [] in
    let allowed := bool_decide (0 < length matchedRoles) in
    ret {| ICheckResponse.allowed := allowed;
           ICheckResponse.reason :=
             Some (if allowed
                   then "Granted by role(s): " +:+ JS.join ", " matchedRoles
                   else "No role grants permission " +:+ requiredPermission);
           ICheckResponse.debug :=
             Some {| Debug.matchedRoles := matchedRoles;
                     Debug.matchedPermissions := matchedPermissions;
                     Debug.evaluationTime := 0 |} |}.

(** The [catch] block, lines 274-282. *)
Definition checkHandler (error : Thrown) : Async ICheckResponse.t :=
  config ⇐ getConfig ;;
  if MutableConfig.throwOnError config then throw error
  else ret {| ICheckResponse.allowed := false;
              ICheckResponse.reason :=
                Some ("Error during permission check: "
                      +:+ rendering error);
              ICheckResponse.debug := None |}.

(** [checkWithDetails], lines 158-283: [ensureScope] is awaited before the
    [try] block opens. *)
Definition checkWithDetails (request : ICheckRequest.t)
    : Async ICheckResponse.t :=
  _ ⇐ ensureScope ;;
  tryCatch (checkBody request) checkHandler.

(** [check], lines 146-149. *)
Definition check (request : ICheckRequest.t) : Async bool :=
  response ⇐ checkWithDetails request ;;
  ret (ICheckResponse.allowed response).

(** ** Several calls of [ensureScope] on one instance *)

(** JavaScript runs one synchronous stretch at a time: a call runs from its
    invocation, or from the settling of what it awaits, to its next [await]
    or to its end, and nothing else of the program runs in between. The
    event loop below has one transition per stretch of [ensureScope] and
    [fetchAndSetScope]. *)
Module EventLoop.

Inductive PromiseState :=
| Pending
| Fulfilled
| Rejected (error : Thrown).

Global Instance PromiseState_eq_dec : EqDecision PromiseState.
Proof. solve_decision. Defined.

(** Where a caller of [ensureScope] stands. *)
Inductive Caller :=
| NotCalled
| Owner (p : PromiseRef)    (* suspended at line 537, inside try/finally *)
| Joiner (p : PromiseRef)   (* left at line 532 with the promise [p] *)
| Finished (result : Thrown + unit).

(** The instance, the promises that [fetchAndSetScope] calls created
    (a reference is an index), the callers, and the requests sent. *)
Record t := mk {
  this : Permissio.t;
  promises : list PromiseState;
  callers : list Caller;
  requests : list Call;
}.

Inductive Event :=
| Invoke (i : nat)
    (* caller [i] calls [ensureScope()] *)
| Respond (p : PromiseRef) (response : Thrown + IApiKeyScope.t)
    (* the request behind promise [p] settles *)
| Resume (i : nat).
    (* caller [i] runs on after the promise it awaits has settled *)

Definition settle (result : Thrown + unit) : PromiseState :=
  match result with
  | inr _ => Fulfilled
  | inl error => Rejected error
  end.

Definition settled (p : PromiseState) : option (Thrown + unit) :=
  match p with
  | Pending => None
  | Fulfilled => Some (inr tt)
  | Rejected error => Some (inl error)
  end.

(** One stretch; [None] when the event cannot happen in this state. *)
Definition step (s : t) (ev : Event) : option t :=
  match ev with
  | Invoke i =>
      match callers s !! i with
      | Some NotCalled =>
          match ensureScope_entry (this s) with
          | EntryReturn =>
              Some (mk (this s) (promises s)
                      (<[i := Finished (inr tt)]> (callers s))
                      (requests s))
          | EntryJoin p =>
              Some (mk (this s) (promises s)
                      (<[i := Joiner p]> (callers s)) (requests s))
          | EntryFetch =>
              let p := length (promises s) in
              Some (mk (Permissio.setScopeInitPromise (Some p) (this s))
                      (promises s ++ [Pending])
                      (<[i := Owner p]> (callers s))
                      (requests s ++ [GetApiKeyScope]))
          end
      | _ => None
      end
  | Respond p response =>
      match promises s !! p with
      | Some Pending =>
          let '(result, this') :=
            fetchAndSetScope_settle response (this s) in
          Some (mk this' (<[p := settle result]> (promises s))
                  (callers s) (requests s))
      | _ => None
      end
  | Resume i =>
      match callers s !! i with
      | Some (Owner p) =>
          result ← promises s !! p ≫= settled;
          Some (mk (ensureScope_finally (this s)) (promises s)
                  (<[i := Finished result]> (callers s)) (requests s))
      | Some (Joiner p) =>
          result ← promises s !! p ≫= settled;
          Some (mk (this s) (promises s)
                  (<[i := Finished result]> (callers s)) (requests s))
      | _ => None
      end
  end.

Fixpoint run (s : t) (events : list Event) : option t :=
  match events with
  | [] => Some s
  | ev :: events' => s' ← step s ev; run s' events'
  end.

(** A fresh instance and [n] callers that have not called yet. *)
Definition init (config : MutableConfig.t) (n : nat) : t :=
  mk (Permissio.new config) [] (replicate n NotCalled) [].

(** The number of scope requests sent. *)
Definition scopeFetches (s : t) : nat :=
  length (filter (λ call, call = GetApiKeyScope) (requests s)).

(** The states that [n] callers can bring a fresh instance to. *)
Definition reachable (config : MutableConfig.t) (n : nat) (s : t) : Prop :=
  ∃ events, run (init config n) events = Some s.

(** What every reachable state satisfies: a pending promise is the one the
    instance holds, and the scope is then neither initialised nor
    configured; the caller suspended inside [try]/[finally] awaits the
    promise the instance holds, and there is at most one such caller. *)
Definition consistent (s : t) : Prop :=
  (∀ p, promises s !! p = Some Pending →
        Permissio.scopeInitPromise (this s) = Some p
        ∧ Permissio.scopeInitialized (this s) = false
        ∧ MutableConfig.hasScope (Permissio.config (this s)) = false)
  ∧ (∀ i p, callers s !! i = Some (Owner p) →
            Permissio.scopeInitPromise (this s) = Some p)
  ∧ (∀ i j p q, callers s !! i = Some (Owner p) →
                callers s !! j = Some (Owner q) → i = j).

End EventLoop.

(** ** Measures and invariants used below *)

(** The roles of the table that [visited] does not hold yet bound the depth
    of the recursion. *)
Definition unvisited (rolesMap : gmap string IRoleRead.t)
    (visited : gset string) : nat :=
  size (dom rolesMap ∖ visited).

(** What a call promises about the keys it expands: they are pairwise
    distinct, none of them was visited before the call, and the call leaves
    [visited] enlarged by exactly these keys. *)
Definition expands_once (visited : gset string) (r : Closure) : Prop :=
  let '(_, visited', expanded) := r in
  NoDup expanded
  ∧ (∀ k, k ∈ expanded → k ∉ visited)
  ∧ visited' = visited ∪ list_to_set expanded.

(** ** Example data *)

(** A three-role table for the examples: [admin] extends [editor], which
    extends [viewer]. *)
Definition admin : IRoleRead.t :=
  IRoleRead.mk "admin" (Some ["document:delete"; "document:read"])
    (Some ["editor"]).
Definition editor : IRoleRead.t :=
  IRoleRead.mk "editor" (Some ["document:write"; "document:read"])
    (Some ["viewer"]).
Definition viewer : IRoleRead.t :=
  IRoleRead.mk "viewer" (Some ["document:read"]) None.
Definition chainTable : gmap string IRoleRead.t :=
  buildRolesMap [admin; editor; viewer].

(** Two roles that extend each other. *)
Definition ping : IRoleRead.t :=
  IRoleRead.mk "ping" (Some ["a:read"; "b:read"]) (Some ["pong"]).
Definition pong : IRoleRead.t :=
  IRoleRead.mk "pong" (Some ["b:read"; "c:read"]) (Some ["ping"]).
Definition cycleTable : gmap string IRoleRead.t :=
  buildRolesMap [ping; pong].

(** The world of the examples: no scope is configured and the endpoint
    supplies one; user [u1] holds [admin] twice, user [u0] holds nothing;
    the role table is [chainTable]'s. *)
Definition exampleConfig : MutableConfig.t :=
  MutableConfig.mk "permis_key_0" "https://api.permissio.io" None None
    false 30000 ∅ 3 false.
Definition exampleWorld : World :=
  {| apiKeyScope := inr (IApiKeyScope.mk "org" (Some "proj") (Some "env"));
     roleAssignmentsList user tenant :=
       inr (IRoleAssignmentList.mk
              (Some (if bool_decide (user = "u1")
                     then [IRoleAssignmentRead.mk "u1" "admin" None None None;
                           IRoleAssignmentRead.mk "u1" "admin" (Some "t")
                             None None]
                     else [])));
     rolesList _ := inr (IRoleList.mk (Some [admin; editor; viewer])) |}.
Definition exampleRequest (user action : string) : ICheckRequest.t :=
  ICheckRequest.mk (UserString user) action (ResourceString "document") None.

(** The network error of the examples. *)
Definition networkError : Thrown := {| rendering := "Error: Network Error" |}.

(** A world whose scope endpoint fails. *)
Definition offlineWorld : World :=
  {| apiKeyScope := inl networkError;
     roleAssignmentsList _ _ := inl networkError;
     rolesList _ := inl networkError |}.

(** Only a project id was configured. *)
Definition partialConfig : MutableConfig.t :=
  MutableConfig.setProjectId (Some "proj") exampleConfig.

(** Both ids were configured. *)
Definition fullConfig : MutableConfig.t :=
  MutableConfig.setEnvironmentId (Some "env") partialConfig.

(** The project id was configured as the empty string. *)
Definition blankConfig : MutableConfig.t :=
  MutableConfig.setProjectId (Some EmptyString) exampleConfig.

(** The configured scope the endpoint supplies in the examples. *)
Definition fetchedScope : IApiKeyScope.t :=
  IApiKeyScope.mk "org" (Some "proj") (Some "env").

(** ** The inheritance graph of a role table *)

(** [parent] is named in the [extends] array of the role that the table
    holds under [child]. *)
Definition extendsDirectly (rolesMap : gmap string IRoleRead.t)
    (child parent : string) : Prop :=
  ∃ role,
    rolesMap !! child = Some role
    ∧ parent ∈ default [] (IRoleRead.extends role).

(** [ancestor] is [roleKey] itself or is reached from it along [extends]. *)
Definition inherits (rolesMap : gmap string IRoleRead.t)
    (roleKey ancestor : string) : Prop :=
  rtc (extendsDirectly rolesMap) roleKey ancestor.

(** [role.permissions || []] of the role under [roleKey], nothing for a key
    the table does not hold. *)
Definition directPermissions (rolesMap : gmap string IRoleRead.t)
    (roleKey : string) : list string :=
  match rolesMap !! roleKey with
  | Some role => default [] (IRoleRead.permissions role)
  | None => []
  end.

(** What a call on [roleKey] from the visited set [visited] returns, in
    terms of the graph: the array holds the direct permissions of the
    expanded keys; these are reached from [roleKey]; [roleKey] is visited
    afterwards, and so is every parent of an expanded key. *)
Definition closure_sound (rolesMap : gmap string IRoleRead.t)
    (roleKey : string) (visited : gset string) (r : Closure) : Prop :=
  let '(permissions, visited', expanded) := r in
  (∀ p, p ∈ permissions ↔
        ∃ k, k ∈ expanded ∧ p ∈ directPermissions rolesMap k)
  ∧ (∀ k, k ∈ expanded → inherits rolesMap roleKey k)
  ∧ roleKey ∈ visited'
  ∧ (∀ k parent, k ∈ expanded → extendsDirectly rolesMap k parent →
                 parent ∈ visited')
  ∧ visited' = visited ∪ list_to_set expanded.

(** ** The other public operations of the client *)

Module IGetPermissionsRequest.
Record t := mk {
  user : string;
  tenant : option string;
  resource : option string;
}.
End IGetPermissionsRequest.

(** [IGetPermissionsResponse]; the optional [resources] field is never set. *)
Module IGetPermissionsResponse.
Record t := mk {
  permissions : list string;
  roles : list string;
}.
End IGetPermissionsResponse.

(** [this.api.roleAssignments.list({ user, tenant, resource })], line 379.
    Without a resource this is the lookup of the check. With one, the
    answer is [filtered]'s; the request is recorded by user and tenant. *)
Definition roleAssignments_listFor
    (filtered : string → option string → string
                → Thrown + IRoleAssignmentList.t)
    (user : string) (tenant resource : option string)
    : Async IRoleAssignmentList.t :=
  match resource with
  | None => roleAssignments_list user tenant
  | Some r =>
      send (ListRoleAssignments user tenant) (λ _, filtered user tenant r)
  end.

(** The loop of lines 403-410. *)
Fixpoint collectPermissions (roleKeys : list string)
    (rolesMap : gmap string IRoleRead.t) (allPermissions : list string)
    : list string :=
  match roleKeys with
  | [] => allPermissions
  | roleKey :: rest =>
      collectPermissions rest rolesMap
        (allPermissions ++ rolePermissions roleKey rolesMap)
  end.

(** The [try] block of [getPermissions], lines 378-415. *)
Definition permissionsBody
    (filtered : string → option string → string
                → Thrown + IRoleAssignmentList.t)
    (request : IGetPermissionsRequest.t) : Async IGetPermissionsResponse.t :=
  assignmentsResponse ⇐
    roleAssignments_listFor filtered (IGetPermissionsRequest.user request)
      (IGetPermissionsRequest.tenant request)
      (IGetPermissionsRequest.resource request) ;;
  if noAssignments assignmentsResponse then
    ret {| IGetPermissionsResponse.roles := [];
           IGetPermissionsResponse.permissions := [] |}
  else
    let roleKeys :=
      JS.dedupe
        (IRoleAssignmentRead.role
           <$> default [] (IRoleAssignmentList.data assignmentsResponse)) in
    rolesResponse ⇐ roles_list 100 ;;
    let rolesMap :=
      buildRolesMap (default [] (IRoleList.data rolesResponse)) in
    let allPermissions := collectPermissions roleKeys rolesMap [] in
    ret {| IGetPermissionsResponse.roles := roleKeys;
           IGetPermissionsResponse.permissions := JS.dedupe allPermissions |}.

(** The [catch] block of [getPermissions], lines 416-421. *)
Definition permissionsHandler (error : Thrown)
    : Async IGetPermissionsResponse.t :=
  config ⇐ getConfig ;;
  if MutableConfig.throwOnError config then throw error
  else ret {| IGetPermissionsResponse.permissions := [];
              IGetPermissionsResponse.roles := [] |}.

(** [getPermissions], lines 371-422. *)
Definition getPermissions
    (filtered : string → option string → string
                → Thrown + IRoleAssignmentList.t)
    (request : IGetPermissionsRequest.t) : Async IGetPermissionsResponse.t :=
  _ ⇐ ensureScope ;;
  tryCatch (permissionsBody filtered request) permissionsHandler.

(** [PermissioApiError], [src/api/base.ts]: an [Error] named
    [PermissioApiError]. [details] is a free-form object there; the one the
    client builds holds the request and the decision. *)
Module PermissioApiError.
Record t := mk {
  message : string;
  code : option string;
  statusCode : Z;
  details : option (ICheckRequest.t * ICheckResponse.t);
}.

(** What a template literal makes of it, for a non-empty message. *)
Definition thrown (e : t) : Thrown :=
  {| rendering := "PermissioApiError: " +:+ message e |}.
End PermissioApiError.



(** [getScope], lines 512-518: the pair of [projectId] and
    [environmentId]. *)
Definition getScope : Async (option string * option string) :=
  _ ⇐ ensureScope ;;
  config ⇐ getConfig ;;
  ret (MutableConfig.projectId config, MutableConfig.environmentId config).

(** ** More that every reachable state of the event loop satisfies *)

(** One scope request was sent per promise created; a fulfilled promise
    means the scope is initialised; every promise but the last has been
    rejected; the promise the instance holds, and the promise a caller
    awaits, exist. *)
Definition orderly (s : EventLoop.t) : Prop :=
  EventLoop.requests s
  = replicate (length (EventLoop.promises s)) GetApiKeyScope
  ∧ (∀ p, EventLoop.promises s !! p = Some EventLoop.Fulfilled →
          Permissio.scopeInitialized (EventLoop.this s) = true)
  ∧ (∀ p, S p < length (EventLoop.promises s) →
          ∃ error,
            EventLoop.promises s !! p = Some (EventLoop.Rejected error))
  ∧ (∀ p, Permissio.scopeInitPromise (EventLoop.this s) = Some p →
          p < length (EventLoop.promises s))
  ∧ (∀ i p, EventLoop.callers s !! i = Some (EventLoop.Owner p)
            ∨ EventLoop.callers s !! i = Some (EventLoop.Joiner p) →
            p < length (EventLoop.promises s)).

(** ** Configuration and construction, [src/config.ts] *)

(** More string helpers. *)
Module Str.

(** [s.startsWith(prefix)] *)
Fixpoint startsWith (prefix s : string) : bool :=
  match prefix, s with
  | EmptyString, _ => true
  | String a prefix', String b s' => bool_decide (a = b) && startsWith prefix' s'
  | String _ _, EmptyString => false
  end.

(** [s.slice(n)] for [n] within the string or past its end. *)
Fixpoint drop (n : nat) (s : string) : string :=
  match n, s with
  | O, _ => s
  | S n', String _ s' => drop n' s'
  | S _, EmptyString => EmptyString
  end.

(** [s.replace(pattern, replacement)] with a string pattern: the first
    occurrence only. *)
Fixpoint replace (pattern replacement s : string) : string :=
  if startsWith pattern s
  then replacement +:+ drop (String.length pattern) s
  else match s with
       | EmptyString => EmptyString
       | String c s' => String c (replace pattern replacement s')
       end.

End Str.

(** [IPermissioConfig]: what the caller passes to the constructor. *)
Module IPermissioConfig.
Record t := mk {
  token : string;
  apiUrl : option string;
  projectId : option string;
  environmentId : option string;
  debug : option bool;
  timeout : option Z;
  customHeaders : option (gmap string string);
  retryAttempts : option nat;
  throwOnError : option bool;
}.
End IPermissioConfig.

(** [DEFAULT_CONFIG] *)
Module DEFAULT_CONFIG.
Definition apiUrl : string := "https://api.permissio.io".
Definition debug : bool := false.
Definition timeout : Z := 30000.
Definition customHeaders : gmap string string := ∅.
Definition retryAttempts : nat := 3.
Definition throwOnError : bool := true.
End DEFAULT_CONFIG.

(** [resolveConfig]; [a ?? b] is [default b a], and in the spread of the
    two header objects the caller's entries win. *)
Definition resolveConfig (config : IPermissioConfig.t)
    : Thrown + MutableConfig.t :=
  if bool_decide (IPermissioConfig.token config = EmptyString) then
    inl (newError "Permissio.io SDK: API token is required")
  else if negb (Str.startsWith "permis_key_" (IPermissioConfig.token config))
  then
    inl (newError
           "Permissio.io SDK: Invalid API key format. Expected format: permis_key_<key>")
  else
    inr {| MutableConfig.token := IPermissioConfig.token config;
           MutableConfig.apiUrl :=
             default DEFAULT_CONFIG.apiUrl (IPermissioConfig.apiUrl config);
           MutableConfig.projectId := IPermissioConfig.projectId config;
           MutableConfig.environmentId :=
             IPermissioConfig.environmentId config;
           MutableConfig.debug :=
             default DEFAULT_CONFIG.debug (IPermissioConfig.debug config);
           MutableConfig.timeout :=
             default DEFAULT_CONFIG.timeout (IPermissioConfig.timeout config);
           MutableConfig.customHeaders :=
             default ∅ (IPermissioConfig.customHeaders config)
             ∪ DEFAULT_CONFIG.customHeaders;
           MutableConfig.retryAttempts :=
             default DEFAULT_CONFIG.retryAttempts
               (IPermissioConfig.retryAttempts config);
           MutableConfig.throwOnError :=
             default DEFAULT_CONFIG.throwOnError
               (IPermissioConfig.throwOnError config) |}.

(** [new Permissio(config)] and [createPermissio(config)]: the constructor
    throws what [resolveConfig] throws. *)
Definition createPermissio (config : IPermissioConfig.t)
    : Thrown + Permissio.t :=
  match resolveConfig config with
  | inl error => inl error
  | inr resolved => inr (Permissio.new resolved)
  end.

(** ** Addresses *)

(** The test [projectId && environmentId] of a destructured configuration,
    with the two ids when it passes. *)
Definition scopeIds (config : MutableConfig.t) : option (string * string) :=
  match MutableConfig.projectId config, MutableConfig.environmentId config with
  | Some projectId, Some environmentId =>
      if JS.truthy (Some projectId) && JS.truthy (Some environmentId)
      then Some (projectId, environmentId) else None
  | _, _ => None
  end.

(** [buildBaseUrl], lines 586-594 of the client. *)
Definition buildBaseUrl (this : Permissio.t) : string :=
  let config := Permissio.config this in
  match scopeIds config with
  | Some (projectId, environmentId) =>
      MutableConfig.apiUrl config +:+ "/v1/facts/" +:+ projectId
      +:+ "/" +:+ environmentId
  | None => MutableConfig.apiUrl config +:+ "/v1"
  end.

(** [buildCheckUrl], lines 596-598. *)
Definition buildCheckUrl (this : Permissio.t) : string :=
  buildBaseUrl this +:+ "/check".

(** [BaseApiClient.buildPath], [src/api/base.ts]. The client holds the
    very configuration object of the [Permissio] instance, so it sees the
    scope that [fetchAndSetScope] stores. *)
Definition buildPath (config : MutableConfig.t) (path : string) : string :=
  if Str.startsWith "/schema" path then
    match scopeIds config with
    | Some (projectId, environmentId) =>
        "/v1/schema/" +:+ projectId +:+ "/" +:+ environmentId
        +:+ Str.replace "/schema" EmptyString path
    | None => "/v1" +:+ path
    end
  else
    match scopeIds config with
    | Some (projectId, environmentId) =>
        "/v1/facts/" +:+ projectId +:+ "/" +:+ environmentId +:+ path
    | None => "/v1" +:+ path
    end.

(** ** The HTTP layer, [src/api/base.ts] *)

(** An [AxiosError], as far as [handleError] reads it. [config] is absent
    or holds the [_retryCount] marker, itself absent before the first
    retry. *)
Module AxiosError.
Record ResponseData := mkData {
  dataMessage : option string;
  dataCode : option string;
}.
Record Response := mkResponse {
  status : Z;
  data : option ResponseData;
}.
Record t := mk {
  message : string;
  config : option (option nat);
  response : option Response;
  request : bool;
}.
End AxiosError.

Module IApiError.
Record t := mk {
  message : string;
  code : option string;
  statusCode : Z;
  details : option AxiosError.ResponseData;
}.
End IApiError.

(** [a || b] on an optional string and a string. *)
Definition orElse (a : option string) (b : string) : string :=
  match a with
  | Some s => if bool_decide (s = EmptyString) then b else s
  | None => b
  end.

(** [transformError] *)
Definition transformError (error : AxiosError.t) : IApiError.t :=
  match AxiosError.response error with
  | Some response =>
      let data := AxiosError.data response in
      {| IApiError.message :=
           orElse (data ≫= AxiosError.dataMessage) (AxiosError.message error);
         IApiError.code :=
           Some (orElse (data ≫= AxiosError.dataCode) "API_ERROR");
         IApiError.statusCode := AxiosError.status response;
         IApiError.details := data |}
  | None =>
      if AxiosError.request error then
        {| IApiError.message := "Network error - no response received";
           IApiError.code := Some "NETWORK_ERROR";
           IApiError.statusCode := 0;
           IApiError.details := None |}
      else
        {| IApiError.message := AxiosError.message error;
           IApiError.code := Some "REQUEST_SETUP_ERROR";
           IApiError.statusCode := 0;
           IApiError.details := None |}
  end.

Definition retryableStatuses : list Z := [408; 429; 500; 502; 503; 504]%Z.

(** The test [shouldRetry] of [handleError]. *)
Definition shouldRetry (retryAttempts : nat) (error : AxiosError.t) : bool :=
  match AxiosError.config error with
  | Some retryCount =>
      bool_decide (default 0 retryCount < retryAttempts)
      && match AxiosError.response error with
         | Some response =>
             bool_decide (AxiosError.status response ∈ retryableStatuses)
         | None => false
         end
  | None => false
  end.

(** [Math.min(1000 * Math.pow(2, retryCount), 10000)], in milliseconds. *)
Definition retryDelay (retryCount : nat) : Z :=
  (1000 * 2 ^ Z.of_nat retryCount) `min` 10000.

(** What [handleError] decides for one failed request: to store the new
    [_retryCount], sleep and send the request again, or to reject with the
    [PermissioApiError] built from the transformed error. Both branches on
    [throwOnError] reject with that same error. *)
Inductive Handled :=
| Retry (retryCount : nat) (delay : Z)
| Reject (apiError : IApiError.t).

Definition handleError (retryAttempts : nat) (error : AxiosError.t)
    : Handled :=
  if shouldRetry retryAttempts error then
    let retryCount := default 0 (default None (AxiosError.config error)) + 1 in
    Retry retryCount (retryDelay retryCount)
  else Reject (transformError error).

(** ** Role assignment lists, [src/api/role-assignments.ts] *)

(** [IRoleAssignmentList] with its paging fields. *)
Module RoleAssignmentPage.
Record t := mk {
  data : option (list IRoleAssignmentRead.t);
  page : nat;
  perPage : nat;
  total : nat;
  totalPages : nat;
}.

(** The list as the check reads it. *)
Definition list (r : t) : IRoleAssignmentList.t :=
  IRoleAssignmentList.mk (data r).
End RoleAssignmentPage.



(** The answer to the lookup of [getPermissions]. *)
Definition permissionsLookup
    (filtered : string → option string → string
                → Thrown + IRoleAssignmentList.t)
    (w : World) (request : IGetPermissionsRequest.t)
    : Thrown + IRoleAssignmentList.t :=
  match IGetPermissionsRequest.resource request with
  | None =>
      roleAssignmentsList w (IGetPermissionsRequest.user request)
        (IGetPermissionsRequest.tenant request)
  | Some r =>
      filtered (IGetPermissionsRequest.user request)
        (IGetPermissionsRequest.tenant request) r
  end.

(** ** More example data *)

(** The store of [exampleWorld] with the two assignments of [u1] bound to
    another tenant, resource and resource instance. *)
Definition relabelledWorld : World :=
  {| apiKeyScope := apiKeyScope exampleWorld;
     roleAssignmentsList user tenant :=
       inr (IRoleAssignmentList.mk
              (Some [IRoleAssignmentRead.mk "u1" "admin" (Some "other")
                       (Some "invoice") (Some "inv-7");
                     IRoleAssignmentRead.mk "u1" "admin" None
                       (Some "invoice") None]));
     rolesList := rolesList exampleWorld |}.

(** The endpoint answers, but names no project and no environment. *)
Definition unscopedWorld : World :=
  {| apiKeyScope := inr (IApiKeyScope.mk "org" None None);
     roleAssignmentsList := roleAssignmentsList exampleWorld;
     rolesList := rolesList exampleWorld |}.


(** * Properties *)

(** ** Arrays through a [Set] *)

Lemma elem_of_dedupe_from seen xs x :
  x ∈ JS.dedupe_from seen xs ↔ x ∈ xs ∧ x ∉ seen.
Proof.
  revert seen. induction xs as [|y xs IH]; intros seen; simpl.
  - set_solver.
  - unfold JS.includes. case_bool_decide as Hy.
    + rewrite IH, elem_of_cons. split; [naive_solver|].
      intros [[->|Hx] Hn]; [done|]. eauto.
    + rewrite !elem_of_cons, IH, not_elem_of_cons.
      destruct (decide (x = y)) as [->|Hne]; naive_solver.
Qed.

Lemma NoDup_dedupe_from seen xs : NoDup (JS.dedupe_from seen xs).
Proof.
  revert seen. induction xs as [|y xs IH]; intros seen; simpl.
  - constructor.
  - unfold JS.includes. case_bool_decide; [apply IH|].
    constructor; [|apply IH].
    rewrite elem_of_dedupe_from, not_elem_of_cons. naive_solver.
Qed.

Lemma elem_of_dedupe xs x : x ∈ JS.dedupe xs ↔ x ∈ xs.
Proof.
  unfold JS.dedupe. rewrite elem_of_dedupe_from.
  split; [naive_solver|]. intros H. split; [done|]. apply not_elem_of_nil.
Qed.

Lemma NoDup_dedupe xs : NoDup (JS.dedupe xs).
Proof. apply NoDup_dedupe_from. Qed.

(** ** The role closure: fuel *)

Lemma forParents_mono (rec1 rec2 : string → gset string → option Closure)
    parents permissions visited expanded r :
  (∀ k v r', rec1 k v = Some r' → rec2 k v = Some r') →
  forParents rec1 parents permissions visited expanded = Some r →
  forParents rec2 parents permissions visited expanded = Some r.
Proof.
  intros Hrec. revert permissions visited expanded.
  induction parents as [|p parents IH]; intros permissions visited expanded;
    simpl; [done|].
  destruct (rec1 p visited) as [[[pp v'] sub]|] eqn:E; simpl; [|done].
  rewrite (Hrec _ _ _ E). simpl. apply IH.
Qed.

(** More fuel does not change an answer. *)
Lemma getRolePermissions_fuel_mono rolesMap (fuel fuel' : nat) roleKey
    visited r :
  fuel ≤ fuel' →
  getRolePermissions fuel roleKey rolesMap visited = Some r →
  getRolePermissions fuel' roleKey rolesMap visited = Some r.
Proof.
  revert fuel' roleKey visited r.
  induction fuel as [|fuel IH]; intros fuel' roleKey visited r Hle; [done|].
  destruct fuel' as [|fuel']; [lia|]. simpl.
  case_decide; [done|].
  destruct (rolesMap !! roleKey) as [role|]; [|done].
  destruct (forParents _ _ _ _ _) as [[[pp v'] e]|] eqn:E; simpl; [|done].
  intros Hr.
  assert (fuel ≤ fuel') as Hle' by lia.
  rewrite (forParents_mono _
             (λ k v, getRolePermissions fuel' k rolesMap v) _ _ _ _ _
             (λ k v r', IH fuel' k v r' Hle') E).
  exact Hr.
Qed.

Lemma getRolePermissions_fuel_irrelevant rolesMap (fuel fuel' : nat) roleKey
    visited r r' :
  getRolePermissions fuel roleKey rolesMap visited = Some r →
  getRolePermissions fuel' roleKey rolesMap visited = Some r' →
  r = r'.
Proof.
  intros H H'.
  apply (getRolePermissions_fuel_mono _ _ (fuel `max` fuel')) in H; [|lia].
  apply (getRolePermissions_fuel_mono _ _ (fuel `max` fuel')) in H'; [|lia].
  congruence.
Qed.

Lemma unvisited_mono rolesMap (visited visited' : gset string) :
  visited ⊆ visited' → unvisited rolesMap visited' ≤ unvisited rolesMap visited.
Proof. intros H. apply subseteq_size. set_solver. Qed.

Lemma unvisited_add rolesMap (visited : gset string) roleKey :
  roleKey ∈ dom rolesMap → roleKey ∉ visited →
  unvisited rolesMap ({[roleKey]} ∪ visited) < unvisited rolesMap visited.
Proof.
  intros Hin Hnot. apply subset_size. split; [set_solver|].
  intros Hsub. specialize (Hsub roleKey). set_solver.
Qed.

Lemma forParents_enough_fuel rolesMap
    (rec : string → gset string → option Closure) (bound : nat) parents :
  (∀ k v, unvisited rolesMap v ≤ bound →
          ∃ ps v' e, rec k v = Some (ps, v', e) ∧ v ⊆ v') →
  ∀ permissions visited expanded,
    unvisited rolesMap visited ≤ bound →
    ∃ ps v' e,
      forParents rec parents permissions visited expanded = Some (ps, v', e)
      ∧ visited ⊆ v'.
Proof.
  intros Hrec.
  induction parents as [|p parents IH]; intros permissions visited expanded Hb;
    simpl.
  - eauto.
  - destruct (Hrec p visited Hb) as (pp & v1 & sub & -> & Hsub). simpl.
    destruct (IH (permissions ++ pp) v1 (expanded ++ sub))
      as (ps & v' & e & -> & Hsub').
    + pose proof (unvisited_mono rolesMap _ _ Hsub). lia.
    + exists ps, v', e. split; [done|]. set_solver.
Qed.

Lemma getRolePermissions_enough_fuel rolesMap (fuel : nat) roleKey visited :
  unvisited rolesMap visited < fuel →
  ∃ ps v' e,
    getRolePermissions fuel roleKey rolesMap visited = Some (ps, v', e)
    ∧ visited ⊆ v'.
Proof.
  revert roleKey visited.
  induction fuel as [|fuel IH]; intros roleKey visited Hlt; [lia|].
  simpl. case_decide as Hvis; [eauto 10|].
  destruct (rolesMap !! roleKey) as [role|] eqn:Hrole.
  - assert (unvisited rolesMap ({[roleKey]} ∪ visited) < unvisited rolesMap visited)
      as Hadd.
    { apply unvisited_add; [|done]. apply elem_of_dom. eauto. }
    destruct (forParents_enough_fuel rolesMap
                (λ k v, getRolePermissions fuel k rolesMap v)
                (unvisited rolesMap ({[roleKey]} ∪ visited))
                (default [] (IRoleRead.extends role))
                ltac:(intros k v Hk; apply IH; lia)
                (default [] (IRoleRead.permissions role))
                ({[roleKey]} ∪ visited) [roleKey] ltac:(lia))
      as (ps & v' & e & -> & Hsub).
    simpl. eexists _, _, _. split; [done|]. set_solver.
  - eexists _, _, _. split; [done|]. set_solver.
Qed.

(** The call of lines 233 and 404 always returns. *)
Lemma getRolePermissions_terminates rolesMap roleKey :
  ∃ ps v' e,
    getRolePermissions (closureFuel rolesMap) roleKey rolesMap ∅
      = Some (ps, v', e)
    ∧ rolePermissions roleKey rolesMap = ps.
Proof.
  destruct (getRolePermissions_enough_fuel rolesMap (closureFuel rolesMap)
              roleKey ∅) as (ps & v' & e & H & _).
  - unfold unvisited, closureFuel.
    rewrite difference_empty_L, size_dom. lia.
  - exists ps, v', e. split; [done|]. unfold rolePermissions. by rewrite H.
Qed.

(** ** The role closure: each role key is expanded at most once *)

Lemma forParents_expands_once
    (rec : string → gset string → option Closure) (base : gset string) :
  (∀ k v r, rec k v = Some r → expands_once v r) →
  ∀ parents permissions visited expanded r,
    visited = base ∪ list_to_set expanded →
    NoDup expanded →
    (∀ k, k ∈ expanded → k ∉ base) →
    forParents rec parents permissions visited expanded = Some r →
    expands_once base r.
Proof.
  intros Hrec.
  induction parents as [|p parents IH];
    intros permissions visited expanded r Hvis Hnd Hfresh; simpl.
  - intros [= <-]. done.
  - destruct (rec p visited) as [[[pp v1] sub]|] eqn:E; simpl; [|done].
    destruct (Hrec _ _ _ E) as (Hnd' & Hfresh' & ->).
    apply IH.
    + rewrite Hvis, list_to_set_app_L. set_solver.
    + apply NoDup_app. split_and!; [done| |done].
      intros k Hk Hk'. apply (Hfresh' k Hk'). rewrite Hvis.
      apply elem_of_union_r, elem_of_list_to_set, Hk.
    + intros k [Hk|Hk]%elem_of_app; [by apply Hfresh|].
      intros Hbase. apply (Hfresh' k Hk). rewrite Hvis.
      by apply elem_of_union_l.
Qed.

Lemma getRolePermissions_expands_once rolesMap (fuel : nat) roleKey visited r :
  getRolePermissions fuel roleKey rolesMap visited = Some r →
  expands_once visited r.
Proof.
  revert roleKey visited r.
  induction fuel as [|fuel IH]; intros roleKey visited r; simpl; [done|].
  case_decide as Hvis.
  - intros [= <-]. simpl. split_and!; [constructor|set_solver|set_solver].
  - destruct (rolesMap !! roleKey) as [role|].
    + destruct (forParents _ _ _ _ _) as [[[pp v'] e]|] eqn:E; simpl; [|done].
      intros [= <-].
      apply (forParents_expands_once _ visited
               (λ k v r, IH k v r) _ _ _ _ _) in E; [done| | |].
      * set_solver.
      * apply NoDup_singleton.
      * intros k ->%list_elem_of_singleton. done.
    + intros [= <-]. simpl. split_and!.
      * apply NoDup_singleton.
      * intros k ->%list_elem_of_singleton. done.
      * set_solver.
Qed.

(** ** The role closure on a chain and on a two-role cycle *)

Lemma getRolePermissions_unfold (fuel : nat) roleKey rolesMap visited :
  getRolePermissions (S fuel) roleKey rolesMap visited
  = if decide (roleKey ∈ visited) then Some ([], visited, [])
    else match rolesMap !! roleKey with
         | None => Some ([], {[roleKey]} ∪ visited, [roleKey])
         | Some role =>
             '(permissions', visited', expanded) ←
               forParents (λ k v, getRolePermissions fuel k rolesMap v)
                 (default [] (IRoleRead.extends role))
                 (default [] (IRoleRead.permissions role))
                 ({[roleKey]} ∪ visited) [roleKey];
             Some (JS.dedupe permissions', visited', expanded)
         end.
Proof. reflexivity. Qed.

Lemma forParents_cons rec p rest permissions visited expanded :
  forParents rec (p :: rest) permissions visited expanded
  = '(parentPermissions, visited', sub) ← rec p visited;
    forParents rec rest (permissions ++ parentPermissions) visited'
      (expanded ++ sub).
Proof. reflexivity. Qed.

Lemma forParents_nil rec permissions visited expanded :
  forParents rec [] permissions visited expanded
  = Some (permissions, visited, expanded).
Proof. reflexivity. Qed.

(** One step into a role that is in the table and not yet visited. *)
Ltac expand_role Hrole Hext :=
  rewrite getRolePermissions_unfold;
  rewrite decide_False by set_solver;
  rewrite Hrole, ?Hext;
  change (default [] (Some ?l)) with l.

(** One step into a role that was visited already. *)
Ltac prune_role :=
  rewrite getRolePermissions_unfold;
  rewrite decide_True by set_solver.

Lemma chain_at_fuel (table : gmap string IRoleRead.t) A B C rA rB rC
    (n : nat) :
  table !! A = Some rA → table !! B = Some rB → table !! C = Some rC →
  IRoleRead.extends rA = Some [B] →
  IRoleRead.extends rB = Some [C] →
  default [] (IRoleRead.extends rC) = [] →
  getRolePermissions (S (S (S n))) A table ∅
  = Some (JS.dedupe
            (default [] (IRoleRead.permissions rA)
             ++ JS.dedupe
                  (default [] (IRoleRead.permissions rB)
                   ++ JS.dedupe (default [] (IRoleRead.permissions rC)))),
          {[C]} ∪ ({[B]} ∪ ({[A]} ∪ ∅)),
          [A; B; C]).
Proof.
  intros HA HB HC HeA HeB HeC.
  assert (B ≠ C) as HBC.
  { intros ->. rewrite HB in HC. injection HC as ->.
    rewrite HeB in HeC. discriminate. }
  assert (A ≠ B) as HAB.
  { intros ->. rewrite HA in HB. injection HB as ->.
    rewrite HeA in HeB. congruence. }
  assert (A ≠ C) as HAC.
  { intros ->. rewrite HA in HC. injection HC as ->.
    rewrite HeA in HeC. discriminate. }
  expand_role HA HeA. rewrite forParents_cons. cbv beta.
  expand_role HB HeB. rewrite forParents_cons. cbv beta.
  expand_role HC HeC. rewrite forParents_nil.
  cbn [mbind option_bind]. rewrite !forParents_nil.
  cbn [mbind option_bind]. rewrite !forParents_nil.
  cbn [mbind option_bind]. reflexivity.
Qed.

Lemma cycle_at_fuel (table : gmap string IRoleRead.t) X Y rX rY (n : nat) :
  table !! X = Some rX → table !! Y = Some rY →
  IRoleRead.extends rX = Some [Y] →
  IRoleRead.extends rY = Some [X] →
  getRolePermissions (S (S (S n))) X table ∅
  = Some (if decide (Y = X)
          then (JS.dedupe (default [] (IRoleRead.permissions rX) ++ []),
                {[X]} ∪ ∅, [X])
          else (JS.dedupe
                  (default [] (IRoleRead.permissions rX)
                   ++ JS.dedupe
                        (default [] (IRoleRead.permissions rY) ++ [])),
                {[Y]} ∪ ({[X]} ∪ ∅), [X; Y])).
Proof.
  intros HX HY HeX HeY.
  expand_role HX HeX. rewrite forParents_cons. cbv beta.
  destruct (decide (Y = X)) as [->|Hne].
  - prune_role. cbn [mbind option_bind]. rewrite forParents_nil.
    cbn [mbind option_bind]. reflexivity.
  - expand_role HY HeY. rewrite forParents_cons. cbv beta.
    prune_role. cbn [mbind option_bind]. rewrite forParents_nil.
    cbn [mbind option_bind]. rewrite forParents_nil.
    cbn [mbind option_bind]. reflexivity.
Qed.

(** C1. In a table where role [A] extends exactly [B], [B] extends exactly
    [C] and [C] extends nothing, the closure computed for [A] from an empty
    visited set returns, and the returned array holds exactly the direct
    permissions of [A], [B] and [C], each once. *)
Theorem closure_of_linear_chain
    (table : gmap string IRoleRead.t) A B C rA rB rC :
  table !! A = Some rA → table !! B = Some rB → table !! C = Some rC →
  IRoleRead.extends rA = Some [B] →
  IRoleRead.extends rB = Some [C] →
  default [] (IRoleRead.extends rC) = [] →
  ∃ ps visited' expanded,
    getRolePermissions (closureFuel table) A table ∅
      = Some (ps, visited', expanded)
    ∧ rolePermissions A table = ps
    ∧ NoDup ps
    ∧ ∀ p, p ∈ ps ↔
           p ∈ default [] (IRoleRead.permissions rA)
           ∨ p ∈ default [] (IRoleRead.permissions rB)
           ∨ p ∈ default [] (IRoleRead.permissions rC).
Proof.
  intros HA HB HC HeA HeB HeC.
  destruct (getRolePermissions_terminates table A)
    as (ps & visited' & expanded & Hrun & Hps).
  pose proof (chain_at_fuel table A B C rA rB rC 0 HA HB HC HeA HeB HeC)
    as Hchain.
  pose proof (getRolePermissions_fuel_irrelevant _ _ _ _ _ _ _ Hrun Hchain)
    as [= -> -> ->].
  eexists _, _, _. split; [exact Hrun|]. split; [exact Hps|].
  split; [apply NoDup_dedupe|].
  intros p.
  rewrite elem_of_dedupe, elem_of_app, elem_of_dedupe, elem_of_app,
    elem_of_dedupe.
  reflexivity.
Qed.

Lemma closure_of_linear_chain_witness :
  ∃ ps visited' expanded,
    getRolePermissions (closureFuel chainTable) "admin" chainTable ∅
      = Some (ps, visited', expanded)
    ∧ rolePermissions "admin" chainTable = ps
    ∧ NoDup ps
    ∧ ∀ p, p ∈ ps ↔
           p ∈ default [] (IRoleRead.permissions admin)
           ∨ p ∈ default [] (IRoleRead.permissions editor)
           ∨ p ∈ default [] (IRoleRead.permissions viewer).
Proof.
  apply (closure_of_linear_chain chainTable "admin" "editor" "viewer"
           admin editor viewer); reflexivity.
Defined.

(** C2. When [X] extends [Y] and [Y] extends [X], the closure computed for
    [X] from an empty visited set returns, and the returned array holds
    exactly the direct permissions of [X] and [Y], each once. Whatever the
    table and the role key, the computation returns and no role key passes
    the visited guard more than once in it. *)
Theorem closure_cycle_safe
    (table : gmap string IRoleRead.t) X Y rX rY :
  table !! X = Some rX → table !! Y = Some rY →
  IRoleRead.extends rX = Some [Y] →
  IRoleRead.extends rY = Some [X] →
  (∃ ps visited' expanded,
     getRolePermissions (closureFuel table) X table ∅
       = Some (ps, visited', expanded)
     ∧ rolePermissions X table = ps
     ∧ NoDup ps
     ∧ ∀ p, p ∈ ps ↔
            p ∈ default [] (IRoleRead.permissions rX)
            ∨ p ∈ default [] (IRoleRead.permissions rY))
  ∧ (∀ (rolesMap : gmap string IRoleRead.t) roleKey,
       ∃ ps visited' expanded,
         getRolePermissions (closureFuel rolesMap) roleKey rolesMap ∅
           = Some (ps, visited', expanded)
         ∧ NoDup expanded
         ∧ visited' = list_to_set expanded).
Proof.
  intros HX HY HeX HeY. split.
  - destruct (getRolePermissions_terminates table X)
      as (ps & visited' & expanded & Hrun & Hps).
    pose proof (cycle_at_fuel table X Y rX rY 0 HX HY HeX HeY) as Hcycle.
    pose proof (getRolePermissions_fuel_irrelevant _ _ _ _ _ _ _ Hrun Hcycle)
      as Heq.
    exists ps, visited', expanded. split; [exact Hrun|]. split; [exact Hps|].
    destruct (decide (Y = X)) as [->|Hne]; injection Heq as -> -> ->.
    + split; [apply NoDup_dedupe|]. intros p.
      rewrite elem_of_dedupe, app_nil_r.
      rewrite HX in HY. injection HY as ->. tauto.
    + split; [apply NoDup_dedupe|]. intros p.
      rewrite elem_of_dedupe, elem_of_app, elem_of_dedupe, app_nil_r.
      reflexivity.
  - intros rolesMap roleKey.
    destruct (getRolePermissions_terminates rolesMap roleKey)
      as (ps & visited' & expanded & Hrun & _).
    exists ps, visited', expanded. split; [exact Hrun|].
    apply getRolePermissions_expands_once in Hrun as (Hnd & _ & ->).
    split; [exact Hnd|]. set_solver.
Qed.

Lemma closure_cycle_safe_witness :
  ∃ ps visited' expanded,
    getRolePermissions (closureFuel cycleTable) "ping" cycleTable ∅
      = Some (ps, visited', expanded)
    ∧ rolePermissions "ping" cycleTable = ps
    ∧ NoDup ps
    ∧ ∀ p, p ∈ ps ↔
           p ∈ default [] (IRoleRead.permissions ping)
           ∨ p ∈ default [] (IRoleRead.permissions pong).
Proof.
  apply (closure_cycle_safe cycleTable "ping" "pong" ping pong);
    reflexivity.
Defined.

(** ** The permission match *)

(** C3. For a required permission built from a resource type and an action,
    the match of lines 244-248 succeeds exactly when the granted array holds
    that very string, or the type followed by [:*], or [*:*]. *)
Theorem grants_exact_or_wildcard
    (resourceType action : string) (granted : list string) :
  grants granted (resourceType +:+ ":" +:+ action) resourceType = true
  ↔ (resourceType +:+ ":" +:+ action) ∈ granted
    ∨ (resourceType +:+ ":*") ∈ granted
    ∨ "*:*" ∈ granted.
Proof.
  unfold grants, JS.includes.
  rewrite !orb_true_iff, !bool_decide_eq_true. tauto.
Qed.

(** The loop of lines 232-252 pushes exactly the role keys whose closure
    passes the match, in order, and the required permission once for each. *)
Lemma matchRoles_filter roleKeys rolesMap requiredPermission resourceType
    matchedRoles matchedPermissions :
  let matching :=
    filter (λ roleKey,
              grants (rolePermissions roleKey rolesMap) requiredPermission
                resourceType = true) roleKeys in
  matchRoles roleKeys rolesMap requiredPermission resourceType
    matchedRoles matchedPermissions
  = (matchedRoles ++ matching,
     matchedPermissions ++ replicate (length matching) requiredPermission).
Proof.
  revert matchedRoles matchedPermissions.
  induction roleKeys as [|roleKey roleKeys IH];
    intros matchedRoles matchedPermissions; simpl.
  - by rewrite !app_nil_r.
  - rewrite filter_cons.
    destruct (grants _ _ _) eqn:Hg.
    + rewrite decide_True by done. rewrite IH. simpl.
      by rewrite <- !app_assoc.
    + rewrite decide_False by done. apply IH.
Qed.

Example grants_other_strings :
  grants ["*:read"; "Document:read"; "document:rea"; "document:read "; "doc:*";
          "document:re*"; "*"; "document:"] "document:read" "document"
  = false.
Proof. reflexivity. Qed.

(** ** The decision engine *)

(** Once [ensureScope] has returned, the check is its [try] statement. *)
Lemma checkWithDetails_scoped request w this calls :
  outcome (ensureScope w this calls) = Returned tt →
  checkWithDetails request w this calls
  = tryCatch (checkBody request) checkHandler w
      (instance (ensureScope w this calls))
      (sent (ensureScope w this calls)).
Proof. intros H. unfold checkWithDetails, bind. by rewrite H. Qed.

(** What [ensureScope] throws, the check throws: line 160 is outside the
    [try] statement. *)
Lemma checkWithDetails_scope_error request w this calls error :
  outcome (ensureScope w this calls) = Threw error →
  checkWithDetails request w this calls
  = {| outcome := Threw error;
       instance := instance (ensureScope w this calls);
       sent := sent (ensureScope w this calls) |}.
Proof. intros H. unfold checkWithDetails, bind. by rewrite H. Qed.

(** [ensureScope] sends the scope request or nothing. *)
Lemma ensureScope_sent w this calls :
  sent (ensureScope w this calls) = calls
  ∨ sent (ensureScope w this calls) = calls ++ [GetApiKeyScope].
Proof.
  unfold ensureScope. destruct (ensureScope_entry this); simpl; auto.
  destruct (fetchAndSetScope_settle _ _). simpl. auto.
Qed.

(** [updateScope] leaves the error policy alone, and so does [ensureScope]. *)
Lemma ensureScope_throwOnError w this calls :
  MutableConfig.throwOnError
    (Permissio.config (instance (ensureScope w this calls)))
  = MutableConfig.throwOnError (Permissio.config this).
Proof.
  unfold ensureScope. destruct (ensureScope_entry this); simpl; try done.
  unfold fetchAndSetScope_settle.
  destruct (apiKeyScope w) as [error|scope]; simpl.
  - by destruct (MutableConfig.hasScope _).
  - unfold MutableConfig.updateScope.
    repeat (case_match; simpl); reflexivity.
Qed.

(** C4. When the role-assignment lookup for the user key and the tenant of
    the request answers with an empty array, [checkWithDetails] returns the
    refusal "User <userKey> has no role assignments" and the lookup is the
    last request it sends: the role table is not asked for. *)
Theorem no_assignments_short_circuit
    (request : ICheckRequest.t) (w : World) (this : Permissio.t)
    (calls : list Call) :
  let userKey := getUserKey (ICheckRequest.user request) in
  let lookup := ListRoleAssignments userKey (ICheckRequest.tenant request) in
  let scoped := ensureScope w this calls in
  outcome scoped = Returned tt →
  roleAssignmentsList w userKey (ICheckRequest.tenant request)
    = inr (IRoleAssignmentList.mk (Some [])) →
  checkWithDetails request w this calls
  = {| outcome :=
         Returned
           {| ICheckResponse.allowed := false;
              ICheckResponse.reason :=
                Some ("User " +:+ userKey +:+ " has no role assignments");
              ICheckResponse.debug := None |};
       instance := instance scoped;
       sent := sent scoped ++ [lookup] |}
  ∧ (sent scoped = calls ∨ sent scoped = calls ++ [GetApiKeyScope]).
Proof.
  intros userKey lookup scoped Hscope Hlookup. split.
  - rewrite checkWithDetails_scoped by exact Hscope.
    unfold tryCatch, checkBody, bind, roleAssignments_list, send.
    simpl. fold userKey. rewrite Hlookup. reflexivity.
  - apply ensureScope_sent.
Qed.

Lemma no_assignments_short_circuit_witness :
  checkWithDetails (exampleRequest "u0" "read") exampleWorld
    (Permissio.new exampleConfig) []
  = {| outcome :=
         Returned
           {| ICheckResponse.allowed := false;
              ICheckResponse.reason :=
                Some "User u0 has no role assignments";
              ICheckResponse.debug := None |};
       instance :=
         instance (ensureScope exampleWorld (Permissio.new exampleConfig) []);
       sent := [GetApiKeyScope; ListRoleAssignments "u0" None] |}.
Proof.
  apply (no_assignments_short_circuit (exampleRequest "u0" "read")
           exampleWorld (Permissio.new exampleConfig) []); reflexivity.
Defined.

(** An error of either list request is handed to the [catch] block. *)
Lemma checkBody_error request w this calls error :
  outcome (checkBody request w this calls) = Threw error →
  tryCatch (checkBody request) checkHandler w this calls
  = {| outcome :=
         if MutableConfig.throwOnError (Permissio.config this)
         then Threw error
         else Returned
                {| ICheckResponse.allowed := false;
                   ICheckResponse.reason :=
                     Some ("Error during permission check: "
                           +:+ rendering error);
                   ICheckResponse.debug := None |};
       instance := this;
       sent := sent (checkBody request w this calls) |}.
Proof.
  intros H. unfold tryCatch. rewrite H.
  assert (instance (checkBody request w this calls) = this) as ->.
  { unfold checkBody, bind, roleAssignments_list, roles_list, send, ret.
    simpl. repeat (case_match; simpl; try done). }
  unfold checkHandler, bind, getConfig, throw, ret. simpl.
  by destruct (MutableConfig.throwOnError _).
Qed.

(** C5, at the input where the code departs from it. The client is set not
    to throw ([throwOnError] is false in [exampleConfig]) and has no scope;
    the scope request fails. The check throws the scope error: it does not
    return a decision. *)
Theorem scope_error_escapes_error_policy :
  MutableConfig.throwOnError exampleConfig = false
  ∧ outcome (checkWithDetails (exampleRequest "u1" "read") offlineWorld
               (Permissio.new exampleConfig) [])
    = Threw (newError (scopeFailureMessage networkError))
  ∧ sent (checkWithDetails (exampleRequest "u1" "read") offlineWorld
            (Permissio.new exampleConfig) [])
    = [GetApiKeyScope].
Proof. repeat split. Qed.

(** The part of C5 that the code keeps: with the scope in place, an error
    of a list request becomes a refusal when [throwOnError] is false and is
    thrown on unchanged when it is true. *)
Lemma list_error_follows_error_policy request w this calls error :
  outcome (ensureScope w this calls) = Returned tt →
  outcome (checkBody request w (instance (ensureScope w this calls))
             (sent (ensureScope w this calls))) = Threw error →
  outcome (checkWithDetails request w this calls)
  = if MutableConfig.throwOnError (Permissio.config this)
    then Threw error
    else Returned
           {| ICheckResponse.allowed := false;
              ICheckResponse.reason :=
                Some ("Error during permission check: " +:+ rendering error);
              ICheckResponse.debug := None |}.
Proof.
  intros Hscope Hbody.
  rewrite checkWithDetails_scoped by exact Hscope.
  rewrite (checkBody_error _ _ _ _ _ Hbody). simpl.
  by rewrite ensureScope_throwOnError.
Qed.

(** C10. Every decision that [checkWithDetails] returns either comes from
    the full evaluation (both list requests answered, some assignment
    present) and then carries a [debug] object whose [evaluationTime] is
    zero, or comes from the no-assignment exit or from the [catch] block and
    then carries no [debug] object. *)
Theorem decision_debug_field
    (request : ICheckRequest.t) (w : World) (this : Permissio.t)
    (calls : list Call) (d : ICheckResponse.t) :
  let userKey := getUserKey (ICheckRequest.user request) in
  let lookup :=
    roleAssignmentsList w userKey (ICheckRequest.tenant request) in
  outcome (checkWithDetails request w this calls) = Returned d →
  match ICheckResponse.debug d with
  | Some dbg =>
      Debug.evaluationTime dbg = 0%Z
      ∧ ∃ assignments roles,
          lookup = inr assignments
          ∧ noAssignments assignments = false
          ∧ rolesList w 100 = inr roles
  | None =>
      (∃ assignments,
         lookup = inr assignments ∧ noAssignments assignments = true
         ∧ ICheckResponse.reason d
           = Some ("User " +:+ userKey +:+ " has no role assignments"))
      ∨ (MutableConfig.throwOnError (Permissio.config this) = false
         ∧ ∃ error,
             ICheckResponse.reason d
             = Some ("Error during permission check: " +:+ rendering error)
             ∧ (lookup = inl error
                ∨ ∃ assignments,
                    lookup = inr assignments
                    ∧ noAssignments assignments = false
                    ∧ rolesList w 100 = inl error))
  end.
Proof.
  intros userKey lookup.
  unfold checkWithDetails at 1. unfold bind at 1.
  destruct (outcome (ensureScope w this calls)) as [[]|error|p] eqn:Hscope;
    simpl; [|done|done].
  rewrite <- (ensureScope_throwOnError w this calls).
  generalize (instance (ensureScope w this calls))
             (sent (ensureScope w this calls)).
  intros this1 calls1.
  unfold tryCatch, checkBody, bind, roleAssignments_list, roles_list, send.
  simpl. fold userKey. fold lookup.
  destruct lookup as [error|assignments] eqn:Hlookup; simpl.
  - unfold checkHandler, bind, getConfig, throw, ret. simpl.
    destruct (MutableConfig.throwOnError _); simpl; [done|].
    intros [= <-]. simpl. right. split; [done|]. exists error. eauto.
  - destruct (noAssignments assignments) eqn:Hnone; simpl.
    + intros [= <-]. simpl. left. exists assignments. eauto.
    + destruct (rolesList w 100) as [error|roles] eqn:Hroles; simpl.
      * unfold checkHandler, bind, getConfig, throw, ret. simpl.
        destruct (MutableConfig.throwOnError _); simpl; [done|].
        intros [= <-]. simpl. right. split; [done|]. exists error.
        split; [done|]. right. exists assignments. eauto.
      * destruct (matchRoles _ _ _ _ _ _) as [matchedRoles matchedPermissions].
        simpl. intros [= <-]. simpl. split; [done|]. eauto.
Qed.

Lemma decision_debug_field_witness :
  match
    ICheckResponse.debug
      {| ICheckResponse.allowed := true;
         ICheckResponse.reason := Some "Granted by role(s): admin";
         ICheckResponse.debug :=
           Some {| Debug.matchedRoles := ["admin"];
                   Debug.matchedPermissions := ["document:read"];
                   Debug.evaluationTime := 0 |} |}
  with
  | Some dbg =>
      Debug.evaluationTime dbg = 0%Z
      ∧ ∃ assignments roles,
          roleAssignmentsList exampleWorld "u1" None = inr assignments
          ∧ noAssignments assignments = false
          ∧ rolesList exampleWorld 100 = inr roles
  | None => False
  end.
Proof.
  refine (decision_debug_field (exampleRequest "u1" "read") exampleWorld
            (Permissio.new exampleConfig) []
            {| ICheckResponse.allowed := true;
               ICheckResponse.reason := Some "Granted by role(s): admin";
               ICheckResponse.debug :=
                 Some {| Debug.matchedRoles := ["admin"];
                         Debug.matchedPermissions := ["document:read"];
                         Debug.evaluationTime := 0 |} |} _).
  vm_compute. reflexivity.
Defined.

(** ** Scope configuration *)

(** C7 as stated fails: with a project id configured and no environment id,
    a failing scope request makes [ensureScope] throw. *)
Lemma partial_scope_failure_is_fatal :
  is_Some (MutableConfig.projectId partialConfig)
  ∧ apiKeyScope offlineWorld = inl networkError
  ∧ outcome (ensureScope offlineWorld (Permissio.new partialConfig) [])
    = Threw (newError (scopeFailureMessage networkError)).
Proof. split; [by eexists|]. split; reflexivity. Qed.

(** C7, amended. Let the scope request fail and no initialisation be in
    flight. With both ids configured and non-empty, [ensureScope] returns
    without sending anything, and [fetchAndSetScope], were its request to
    fail in that state, would swallow the failure. With an id missing or
    empty and the scope not yet initialised, [ensureScope] sends the request
    and throws. *)
Theorem scope_failure_fatal_unless_complete
    (w : World) (this : Permissio.t) (calls : list Call) (error : Thrown) :
  apiKeyScope w = inl error →
  Permissio.scopeInitPromise this = None →
  (MutableConfig.hasScope (Permissio.config this) = true →
     ensureScope w this calls
     = {| outcome := Returned tt; instance := this; sent := calls |}
     ∧ fetchAndSetScope_settle (inl error) this
       = (inr tt, Permissio.setScopeInitialized true this))
  ∧ (MutableConfig.hasScope (Permissio.config this) = false →
     Permissio.scopeInitialized this = false →
     ensureScope w this calls
     = {| outcome := Threw (newError (scopeFailureMessage error));
          instance := this;
          sent := calls ++ [GetApiKeyScope] |}).
Proof.
  intros Hfail Hnone. split.
  - intros Hscope. unfold ensureScope, ensureScope_entry, fetchAndSetScope_settle.
    rewrite Hscope, orb_true_r. done.
  - intros Hscope Hinit.
    unfold ensureScope, ensureScope_entry, fetchAndSetScope_settle.
    rewrite Hscope, Hinit, Hnone, Hfail. simpl.
    destruct this as [config initialized promise]. simpl in *.
    by subst.
Qed.

Lemma scope_failure_fatal_unless_complete_witness :
  (MutableConfig.hasScope fullConfig = true →
     ensureScope offlineWorld (Permissio.new fullConfig) []
     = {| outcome := Returned tt;
          instance := Permissio.new fullConfig; sent := [] |}
     ∧ fetchAndSetScope_settle (inl networkError) (Permissio.new fullConfig)
       = (inr tt,
          Permissio.setScopeInitialized true (Permissio.new fullConfig)))
  ∧ (MutableConfig.hasScope partialConfig = false →
     ensureScope offlineWorld (Permissio.new partialConfig) []
     = {| outcome := Threw (newError (scopeFailureMessage networkError));
          instance := Permissio.new partialConfig;
          sent := [GetApiKeyScope] |}).
Proof.
  split.
  - apply (scope_failure_fatal_unless_complete offlineWorld
             (Permissio.new fullConfig) [] networkError); reflexivity.
  - intros H.
    apply (scope_failure_fatal_unless_complete offlineWorld
             (Permissio.new partialConfig) [] networkError); reflexivity.
Defined.

(** C8 as stated fails: a project id configured as the empty string is
    replaced by the fetched one. *)
Lemma updateScope_overwrites_blank :
  is_Some (MutableConfig.projectId blankConfig)
  ∧ MutableConfig.projectId
      (MutableConfig.updateScope (Some "proj") None blankConfig)
    ≠ MutableConfig.projectId blankConfig.
Proof. split; [by eexists|]. discriminate. Qed.

(** C8, amended. [updateScope] never changes a project id or an environment
    id that is set to a non-empty string; a field it does change was absent
    or empty and receives the non-empty fetched value; no other field of the
    configuration changes. *)
Theorem updateScope_keeps_configured_scope
    (c : MutableConfig.t) (projectId' environmentId' : option string) :
  let c' := MutableConfig.updateScope projectId' environmentId' c in
  (JS.truthy (MutableConfig.projectId c) = true →
     MutableConfig.projectId c' = MutableConfig.projectId c)
  ∧ (JS.truthy (MutableConfig.environmentId c) = true →
     MutableConfig.environmentId c' = MutableConfig.environmentId c)
  ∧ (MutableConfig.projectId c' ≠ MutableConfig.projectId c →
     JS.truthy (MutableConfig.projectId c) = false
     ∧ MutableConfig.projectId c' = projectId'
     ∧ JS.truthy projectId' = true)
  ∧ (MutableConfig.environmentId c' ≠ MutableConfig.environmentId c →
     JS.truthy (MutableConfig.environmentId c) = false
     ∧ MutableConfig.environmentId c' = environmentId'
     ∧ JS.truthy environmentId' = true)
  ∧ MutableConfig.token c' = MutableConfig.token c
  ∧ MutableConfig.apiUrl c' = MutableConfig.apiUrl c
  ∧ MutableConfig.debug c' = MutableConfig.debug c
  ∧ MutableConfig.timeout c' = MutableConfig.timeout c
  ∧ MutableConfig.customHeaders c' = MutableConfig.customHeaders c
  ∧ MutableConfig.retryAttempts c' = MutableConfig.retryAttempts c
  ∧ MutableConfig.throwOnError c' = MutableConfig.throwOnError c.
Proof.
  unfold MutableConfig.updateScope. destruct c as [t a p e d ti h r th].
  simpl.
  destruct (JS.truthy projectId') eqn:Hp', (JS.truthy p) eqn:Hp,
    (JS.truthy environmentId') eqn:He', (JS.truthy e) eqn:He;
    simpl; rewrite ?He; simpl; split_and!; try done.
Qed.

Lemma updateScope_keeps_configured_scope_witness :
  MutableConfig.projectId
    (MutableConfig.updateScope (Some "other") (Some "env") partialConfig)
  = Some "proj"
  ∧ MutableConfig.environmentId
      (MutableConfig.updateScope (Some "other") (Some "env") partialConfig)
    = Some "env".
Proof.
  pose proof (updateScope_keeps_configured_scope partialConfig
                (Some "other") (Some "env")) as (Hp & _).
  split; [exact (Hp eq_refl)|reflexivity].
Defined.

(** ** Resource arguments *)

Lemma split_without sep s :
  JS.contains sep s = false → JS.split sep s = [s].
Proof.
  induction s as [|c s IH]; simpl; [done|].
  case_bool_decide; simpl; [done|]. intros Hs. by rewrite (IH Hs).
Qed.

Lemma split_at_first sep pre post :
  JS.contains sep pre = false →
  JS.split sep (pre +:+ String sep post) = pre :: JS.split sep post.
Proof.
  induction pre as [|c pre IH]; simpl.
  - intros _. by rewrite bool_decide_eq_true_2.
  - case_bool_decide; simpl; [done|]. intros Hs. by rewrite (IH Hs).
Qed.

Lemma contains_at_first sep pre post :
  JS.contains sep (pre +:+ String sep post) = true.
Proof.
  induction pre as [|c pre IH]; simpl.
  - by rewrite bool_decide_eq_true_2.
  - rewrite IH. apply orb_true_r.
Qed.

(** The type of a bare string is the text before its first colon, or all of
    it when it has none. *)
Lemma extractResourceType_before_colon pre post :
  JS.contains ":" pre = false →
  extractResourceType (ResourceString (pre +:+ ":" +:+ post)) = pre.
Proof.
  intros H. unfold extractResourceType.
  change (":" +:+ post) with (String ":" post).
  by rewrite contains_at_first, split_at_first.
Qed.

Lemma bare_string_without_colon s :
  JS.contains ":" s = false →
  extractResourceType (ResourceString s) = s
  ∧ extractResourceInstanceKey (ResourceString s) = None.
Proof.
  intros H. unfold extractResourceType, extractResourceInstanceKey.
  by rewrite H, split_without.
Qed.

(** With one colon, the instance key is the text after it. *)
Lemma instance_key_one_colon pre post :
  JS.contains ":" pre = false → JS.contains ":" post = false →
  extractResourceInstanceKey (ResourceString (pre +:+ ":" +:+ post))
  = Some post.
Proof.
  intros Hpre Hpost. unfold extractResourceInstanceKey.
  change (":" +:+ post) with (String ":" post).
  by rewrite split_at_first, split_without.
Qed.

(** With more colons, the instance key stops at the second one. *)
Lemma instance_key_more_colons pre mid rest :
  JS.contains ":" pre = false → JS.contains ":" mid = false →
  extractResourceInstanceKey
    (ResourceString (pre +:+ ":" +:+ mid +:+ ":" +:+ rest))
  = Some mid.
Proof.
  intros Hpre Hmid. unfold extractResourceInstanceKey.
  change (":" +:+ mid +:+ ":" +:+ rest)
    with (String ":" (mid +:+ String ":" rest)).
  by rewrite !split_at_first.
Qed.

Lemma structured_resource r :
  extractResourceType (ResourceObject r) = ICheckResource.type r
  ∧ extractResourceInstanceKey (ResourceObject r) = ICheckResource.key r.
Proof. done. Qed.

(** C6, at the input where the code departs from it: for the bare string
    [document:doc-1:v2] the type is [document], the text after the first
    colon is [doc-1:v2], and the derived instance key is [doc-1]. *)
Theorem instance_key_stops_at_second_colon :
  extractResourceType (ResourceString "document:doc-1:v2") = "document"
  ∧ "document:doc-1:v2" = "document" +:+ ":" +:+ "doc-1:v2"
  ∧ extractResourceInstanceKey (ResourceString "document:doc-1:v2")
    = Some "doc-1"
  ∧ extractResourceInstanceKey (ResourceString "document:doc-1:v2")
    ≠ Some "doc-1:v2".
Proof. split_and!; [reflexivity..|discriminate]. Qed.

(** ** Several callers of [ensureScope] *)

Section event_loop.
Import EventLoop.

Lemma settle_not_pending result : settle result ≠ Pending.
Proof. by destruct result. Qed.

Lemma settled_not_pending p result : settled p = Some result → p ≠ Pending.
Proof. by destruct p. Qed.

Lemma fetchAndSetScope_settle_promise response this :
  Permissio.scopeInitPromise (fetchAndSetScope_settle response this).2
  = Permissio.scopeInitPromise this.
Proof.
  unfold fetchAndSetScope_settle. destruct response; simpl; [|done].
  by destruct (MutableConfig.hasScope _).
Qed.

(** Overwriting a caller that is not suspended in [try]/[finally] with one
    that is not either keeps the suspended ones where they are. *)
Lemma owner_after_insert (callers : list Caller) i j c p :
  (∀ q, c ≠ Owner q) →
  <[i := c]> callers !! j = Some (Owner p) →
  i ≠ j ∧ callers !! j = Some (Owner p).
Proof.
  intros Hc [(-> & -> & _)|[Hne H]]%list_lookup_insert_Some; [|done].
  by destruct (Hc p).
Qed.

Lemma step_consistent s ev s' :
  consistent s → step s ev = Some s' → consistent s'.
Proof.
  intros (I1 & I2 & I3). destruct ev as [i|p response|i]; simpl.
  - destruct (callers s !! i) as [[]|] eqn:Hi; try done.
    destruct (ensureScope_entry (this s)) as [|p|] eqn:He;
      intros [= <-]; unfold consistent; simpl.
    + split_and!; [done| |].
      * intros j q [_ H]%owner_after_insert; [eauto|done].
      * intros j k p q [_ Hj]%owner_after_insert [_ Hk]%owner_after_insert;
          eauto; done.
    + split_and!; [done| |].
      * intros j q [_ H]%owner_after_insert; [eauto|done].
      * intros j k p' q [_ Hj]%owner_after_insert [_ Hk]%owner_after_insert;
          eauto; done.
    + unfold ensureScope_entry in He.
      destruct (_ || _) eqn:Hor; [done|].
      destruct (Permissio.scopeInitPromise (this s)) eqn:Hp; [done|].
      apply orb_false_iff in Hor as [Hinit Hscope].
      assert (∀ j q, callers s !! j ≠ Some (Owner q)) as Hnone.
      { intros j q Hj. pose proof (I2 _ _ Hj). congruence. }
      split_and!.
      * intros q Hq.
        destruct (decide (q < length (promises s))) as [Hlt|Hge].
        { rewrite lookup_app_l in Hq by done.
          destruct (I1 _ Hq) as [Hq' _]. congruence. }
        apply lookup_lt_Some in Hq as Hlen. rewrite length_app in Hlen.
        simpl in Hlen. assert (q = length (promises s)) as -> by lia.
        done.
      * intros j q [(-> & [= <-] & _)|[_ H]]%list_lookup_insert_Some;
          [done|]. by destruct (Hnone _ _ H).
      * intros j k p q
          [(-> & _ & _)|[_ Hj]]%list_lookup_insert_Some
          [(-> & _ & _)|[_ Hk]]%list_lookup_insert_Some;
          try done; exfalso; eapply Hnone; eauto.
  - destruct (promises s !! p) as [[]|] eqn:Hp; try done.
    destruct (fetchAndSetScope_settle response (this s))
      as [result this'] eqn:Hsettle.
    intros [= <-]; unfold consistent; simpl.
    pose proof (fetchAndSetScope_settle_promise response (this s)) as Hkeep.
    rewrite Hsettle in Hkeep. simpl in Hkeep.
    destruct (I1 _ Hp) as (Hheld & _ & _).
    split_and!.
    + intros q [(-> & Hq & _)|[Hne Hq]]%list_lookup_insert_Some.
      * by destruct (settle_not_pending result).
      * destruct (I1 _ Hq) as (Hq' & _ & _). congruence.
    + intros j q Hj. rewrite Hkeep. eauto.
    + done.
  - destruct (callers s !! i) as [[|p|p|]|] eqn:Hi; try done.
    + destruct (promises s !! p) as [state|] eqn:Hp; simpl; [|done].
      destruct (settled state) as [result|] eqn:Hres; simpl; [|done].
      intros [= <-]; unfold consistent; simpl.
      split_and!.
      * intros q Hq. destruct (I1 _ Hq) as (Hq' & _ & _).
        rewrite (I2 _ _ Hi) in Hq'. injection Hq' as ->.
        rewrite Hp in Hq. injection Hq as ->. done.
      * intros j q [Hne Hj]%owner_after_insert; [|done].
        destruct Hne. eauto.
      * intros j k p' q [_ Hj]%owner_after_insert [_ Hk]%owner_after_insert;
          eauto; done.
    + destruct (promises s !! p) as [state|] eqn:Hp; simpl; [|done].
      destruct (settled state) as [result|] eqn:Hres; simpl; [|done].
      intros [= <-]; unfold consistent; simpl.
      split_and!; [done| |].
      * intros j q [_ H]%owner_after_insert; [eauto|done].
      * intros j k p' q [_ Hj]%owner_after_insert [_ Hk]%owner_after_insert;
          eauto; done.
Qed.

Lemma run_consistent events s s' :
  consistent s → run s events = Some s' → consistent s'.
Proof.
  revert s. induction events as [|ev events IH]; intros s Hs; simpl.
  - by intros [= <-].
  - destruct (step s ev) as [s1|] eqn:Hstep; simpl; [|done].
    apply IH. eapply step_consistent; eauto.
Qed.

Lemma init_consistent config n : consistent (init config n).
Proof.
  split_and!; simpl.
  - intros p. by rewrite lookup_nil.
  - intros i p [[=] _]%lookup_replicate.
  - intros i j p q [[=] _]%lookup_replicate.
Qed.

Lemma reachable_consistent config n s :
  reachable config n s → consistent s.
Proof.
  intros [events Hrun]. eapply run_consistent; [|exact Hrun].
  apply init_consistent.
Qed.

(** While a scope request is outstanding, a new caller leaves
    [ensureScope] with the promise of that request and sends nothing. *)
Lemma invoke_joins s p i :
  consistent s →
  promises s !! p = Some Pending →
  callers s !! i = Some NotCalled →
  step s (Invoke i)
  = Some (mk (this s) (promises s) (<[i := Joiner p]> (callers s))
            (requests s)).
Proof.
  intros (I1 & _ & _) Hp Hi. destruct (I1 _ Hp) as (Hheld & Hinit & Hscope).
  simpl. rewrite Hi. unfold ensureScope_entry.
  by rewrite Hinit, Hscope, Hheld.
Qed.

Lemma pending_unique s p q :
  consistent s →
  promises s !! p = Some Pending → promises s !! q = Some Pending → p = q.
Proof.
  intros (I1 & _ & _) Hp Hq.
  destruct (I1 _ Hp) as (Hp' & _). destruct (I1 _ Hq) as (Hq' & _).
  congruence.
Qed.

(** Only a caller that has not called yet can make the instance send. *)
Lemma step_all_called s ev s' :
  (∀ i, callers s !! i ≠ Some NotCalled) →
  step s ev = Some s' →
  (∀ i, callers s' !! i ≠ Some NotCalled) ∧ requests s' = requests s.
Proof.
  intros Hall. destruct ev as [i|p response|i]; simpl.
  - destruct (callers s !! i) as [[]|] eqn:Hi; try done.
    by destruct (Hall i).
  - destruct (promises s !! p) as [[]|]; try done.
    destruct (fetchAndSetScope_settle response (this s)).
    by intros [= <-].
  - destruct (callers s !! i) as [[|p|p|]|] eqn:Hi; try done.
    + destruct (promises s !! p ≫= settled) as [result|]; simpl; [|done].
      intros [= <-]. simpl. split; [|done].
      intros k [(_ & [=] & _)|[_ Hk]]%list_lookup_insert_Some.
      by destruct (Hall k).
    + destruct (promises s !! p ≫= settled) as [result|]; simpl; [|done].
      intros [= <-]. simpl. split; [|done].
      intros k [(_ & [=] & _)|[_ Hk]]%list_lookup_insert_Some.
      by destruct (Hall k).
Qed.

Lemma run_all_called events s s' :
  (∀ i, callers s !! i ≠ Some NotCalled) →
  run s events = Some s' →
  requests s' = requests s.
Proof.
  revert s. induction events as [|ev events IH]; intros s Hall; simpl.
  - by intros [= <-].
  - destruct (step s ev) as [s1|] eqn:Hstep; simpl; [|done].
    destruct (step_all_called _ _ _ Hall Hstep) as [Hall1 <-].
    by apply IH.
Qed.

(** Two callers on a fresh instance without scope, one right after the
    other: the first sends the request, the second joins its promise. *)
Lemma two_invokes config (i j : nat) :
  MutableConfig.hasScope config = false →
  i < 2 → j < 2 → i ≠ j →
  run (init config 2) [Invoke i; Invoke j]
  = Some (mk (Permissio.setScopeInitPromise (Some 0) (Permissio.new config))
            [Pending]
            (<[j := Joiner 0]> (<[i := Owner 0]> [NotCalled; NotCalled]))
            [GetApiKeyScope]).
Proof.
  intros Hscope Hi Hj Hne.
  assert (i = 0 ∧ j = 1 ∨ i = 1 ∧ j = 0) as [[-> ->]|[-> ->]] by lia;
    simpl; unfold ensureScope_entry; simpl; rewrite Hscope; simpl;
    unfold ensureScope_entry; simpl; rewrite Hscope; reflexivity.
Qed.

(** A call that runs alone, as [ensureScope] describes it, is the event
    loop with one caller: invocation, answer, resumption. *)
Lemma ensureScope_alone w this calls :
  Permissio.scopeInitPromise this = None →
  ∃ events s,
    run (mk this [] [NotCalled] calls) events = Some s
    ∧ EventLoop.this s = instance (ensureScope w this calls)
    ∧ requests s = sent (ensureScope w this calls)
    ∧ ∃ result,
        callers s = [Finished result]
        ∧ outcome (ensureScope w this calls)
          = match result with
            | inr _ => Returned tt
            | inl error => Threw error
            end.
Proof.
  intros Hnone. unfold ensureScope.
  destruct (ensureScope_entry this) as [|p|] eqn:He.
  - exists [Invoke 0]. eexists. simpl. rewrite He. simpl.
    split; [reflexivity|]. simpl. split_and!; [done..|].
    by exists (inr tt).
  - unfold ensureScope_entry in He. rewrite Hnone in He.
    by destruct (_ || _).
  - pose proof (fetchAndSetScope_settle_promise (apiKeyScope w) this)
      as Hkeep.
    assert (fetchAndSetScope_settle (apiKeyScope w)
              (Permissio.setScopeInitPromise (Some 0) this)
            = ((fetchAndSetScope_settle (apiKeyScope w) this).1,
               Permissio.setScopeInitPromise (Some 0)
                 (fetchAndSetScope_settle (apiKeyScope w) this).2)) as Hset.
    { unfold fetchAndSetScope_settle. destruct (apiKeyScope w); simpl.
      - by destruct (MutableConfig.hasScope _).
      - done. }
    destruct (fetchAndSetScope_settle (apiKeyScope w) this)
      as [result this'].
    simpl in Hset, Hkeep.
    exists [Invoke 0; Respond 0 (apiKeyScope w); Resume 0].
    destruct result as [error|[]]; eexists; simpl; rewrite He; simpl;
      rewrite Hset; simpl; (split; [reflexivity|]); simpl;
      (split_and!; [done..|]).
    + by exists (inl error).
    + by exists (inr tt).
Qed.

End event_loop.

(** C9. Two callers invoke [ensureScope] one right after the other on a
    fresh instance without scope: the first sends the scope request and
    awaits its promise, the second leaves with that same promise, and
    however the run goes on, one scope request is all that is ever sent.
    In every state that any number of callers can reach, at most one
    promise is pending, and a caller that invokes [ensureScope] while it is
    pending joins it and sends nothing. *)
Theorem scope_fetch_single_flight
    (config : MutableConfig.t) (i j : nat)
    (events : list EventLoop.Event) (s : EventLoop.t) :
  MutableConfig.hasScope config = false →
  i < 2 → j < 2 → i ≠ j →
  EventLoop.run (EventLoop.init config 2)
    (EventLoop.Invoke i :: EventLoop.Invoke j :: events) = Some s →
  (EventLoop.scopeFetches s = 1
   ∧ ∃ s2,
       EventLoop.run (EventLoop.init config 2)
         [EventLoop.Invoke i; EventLoop.Invoke j] = Some s2
       ∧ EventLoop.promises s2 = [EventLoop.Pending]
       ∧ EventLoop.callers s2 !! i = Some (EventLoop.Owner 0)
       ∧ EventLoop.callers s2 !! j = Some (EventLoop.Joiner 0)
       ∧ EventLoop.requests s2 = [GetApiKeyScope])
  ∧ (∀ config' n s',
       EventLoop.reachable config' n s' →
       (∀ p q,
          EventLoop.promises s' !! p = Some EventLoop.Pending →
          EventLoop.promises s' !! q = Some EventLoop.Pending → p = q)
       ∧ (∀ p k,
            EventLoop.promises s' !! p = Some EventLoop.Pending →
            EventLoop.callers s' !! k = Some EventLoop.NotCalled →
            EventLoop.step s' (EventLoop.Invoke k)
            = Some (EventLoop.mk (EventLoop.this s') (EventLoop.promises s')
                      (<[k := EventLoop.Joiner p]> (EventLoop.callers s'))
                      (EventLoop.requests s')))).
Proof.
  intros Hscope Hi Hj Hne Hrun.
  pose proof (two_invokes config i j Hscope Hi Hj Hne) as Htwo.
  split.
  - change (EventLoop.Invoke i :: EventLoop.Invoke j :: events)
      with ([EventLoop.Invoke i; EventLoop.Invoke j] ++ events) in Hrun.
    assert (∀ l1 l2 s0,
              EventLoop.run s0 (l1 ++ l2)
              = EventLoop.run s0 l1 ≫= λ s1, EventLoop.run s1 l2) as Happ.
    { induction l1 as [|ev l1 IH]; intros l2 s0; simpl; [done|].
      destruct (EventLoop.step s0 ev); simpl; [apply IH|done]. }
    rewrite Happ, Htwo in Hrun. simpl in Hrun.
    split.
    + apply run_all_called in Hrun.
      * unfold EventLoop.scopeFetches. by rewrite Hrun.
      * simpl.
        assert (i = 0 ∧ j = 1 ∨ i = 1 ∧ j = 0) as [[-> ->]|[-> ->]] by lia;
          intros [|[|k]]; done.
    + eexists. split; [exact Htwo|]. simpl.
      assert (i = 0 ∧ j = 1 ∨ i = 1 ∧ j = 0) as [[-> ->]|[-> ->]] by lia;
        done.
  - intros config' n s' Hreach.
    apply reachable_consistent in Hreach. split.
    + intros p q. by apply pending_unique.
    + intros p k. by apply invoke_joins.
Qed.

Lemma scope_fetch_single_flight_witness :
  ∃ s,
    EventLoop.run (EventLoop.init exampleConfig 2)
      [EventLoop.Invoke 0; EventLoop.Invoke 1;
       EventLoop.Respond 0 (inr fetchedScope);
       EventLoop.Resume 1; EventLoop.Resume 0] = Some s
    ∧ EventLoop.scopeFetches s = 1
    ∧ EventLoop.callers s
      = [EventLoop.Finished (inr tt); EventLoop.Finished (inr tt)].
Proof.
  eexists. split; [vm_compute; reflexivity|]. split; [|reflexivity].
  refine (proj1 (proj1 (scope_fetch_single_flight exampleConfig 0 1
                   [EventLoop.Respond 0 (inr fetchedScope);
                    EventLoop.Resume 1; EventLoop.Resume 0] _ _ _ _ _ _)));
    [reflexivity|lia|lia|lia|vm_compute; reflexivity].
Defined.

(** ** The role closure on any table *)

Lemma forParents_sound (rolesMap : gmap string IRoleRead.t)
    (rec : string → gset string → option Closure)
    (child : string) (base : gset string) :
  (∀ k v r, rec k v = Some r → closure_sound rolesMap k v r) →
  ∀ parents permissions visited expanded ps' v' e',
    (∀ parent, parent ∈ parents → extendsDirectly rolesMap child parent) →
    (∀ p, p ∈ permissions ↔
          ∃ k, k ∈ expanded ∧ p ∈ directPermissions rolesMap k) →
    (∀ k, k ∈ expanded → inherits rolesMap child k) →
    visited = base ∪ list_to_set expanded →
    forParents rec parents permissions visited expanded = Some (ps', v', e') →
    (∀ p, p ∈ ps' ↔ ∃ k, k ∈ e' ∧ p ∈ directPermissions rolesMap k)
    ∧ (∀ k, k ∈ e' → inherits rolesMap child k)
    ∧ v' = base ∪ list_to_set e'
    ∧ visited ⊆ v'
    ∧ (∀ parent, parent ∈ parents → parent ∈ v')
    ∧ (∀ k parent, k ∈ e' → k ∉ expanded →
                   extendsDirectly rolesMap k parent → parent ∈ v').
Proof.
  intros Hrec.
  induction parents as [|parent parents IH];
    intros permissions visited expanded ps' v' e' Hpar Hperm Hreach Hvis;
    simpl.
  - intros [= <- <- <-]. split_and!; try done.
    intros parent Hin. by apply elem_of_nil in Hin.
  - destruct (rec parent visited) as [[[pp v1] sub]|] eqn:E; simpl; [|done].
    destruct (Hrec _ _ _ E) as (Hpp & Hsub & Hin & Hclosed & Hv1).
    intros Hloop.
    apply IH in Hloop as (Hps & Hreach' & Hv' & Hmono & Hparents & Hclosed').
    + split_and!; try done.
      * set_solver.
      * intros q [->|Hq]%elem_of_cons; [set_solver|by apply Hparents].
      * intros k q Hk Hnew Hext.
        destruct (decide (k ∈ sub)) as [Hks|Hks].
        -- apply Hmono. eapply Hclosed; eauto.
        -- eapply Hclosed'; eauto. rewrite elem_of_app. tauto.
    + intros q Hq. apply Hpar. by right.
    + intros p. rewrite elem_of_app, Hperm, Hpp. split.
      * intros [(k & Hk & Hp)|(k & Hk & Hp)]; exists k;
          rewrite elem_of_app; tauto.
      * intros (k & [Hk|Hk]%elem_of_app & Hp); eauto.
    + intros k [Hk|Hk]%elem_of_app; [by apply Hreach|].
      eapply rtc_l; [apply Hpar; by left|]. by apply Hsub.
    + rewrite Hv1, Hvis, list_to_set_app_L. set_solver.
Qed.

Lemma getRolePermissions_sound rolesMap (fuel : nat) roleKey visited r :
  getRolePermissions fuel roleKey rolesMap visited = Some r →
  closure_sound rolesMap roleKey visited r.
Proof.
  revert roleKey visited r.
  induction fuel as [|fuel IH]; intros roleKey visited r; simpl; [done|].
  case_decide as Hvis.
  - intros [= <-]. simpl. split_and!.
    + intros p. split; [by intros ?%elem_of_nil|].
      by intros (k & ?%elem_of_nil & _).
    + by intros k ?%elem_of_nil.
    + done.
    + by intros k parent ?%elem_of_nil.
    + set_solver.
  - destruct (rolesMap !! roleKey) as [role|] eqn:Hrole.
    + destruct (forParents _ _ _ _ _) as [[[pp v'] e]|] eqn:E; simpl; [|done].
      intros [= <-].
      apply (forParents_sound rolesMap _ roleKey visited
               (λ k v r, IH k v r)) in E
        as (Hps & Hreach & Hv' & Hmono & Hparents & Hclosed).
      * simpl. split_and!; try done.
        -- intros p. by rewrite elem_of_dedupe.
        -- apply Hmono. set_solver.
        -- intros k parent Hk Hext.
           destruct (decide (k = roleKey)) as [->|Hne].
           ++ destruct Hext as (role' & Hrole' & Hin).
              rewrite Hrole in Hrole'. injection Hrole' as <-.
              by apply Hparents.
           ++ eapply Hclosed; eauto.
              by intros ->%list_elem_of_singleton.
      * intros parent Hin. by exists role.
      * intros p. unfold directPermissions. split.
        -- intros Hp. exists roleKey. rewrite Hrole.
           split; [by apply list_elem_of_singleton|done].
        -- intros (k & ->%list_elem_of_singleton & Hp).
           by rewrite Hrole in Hp.
      * intros k ->%list_elem_of_singleton. apply rtc_refl.
      * set_solver.
    + intros [= <-]. simpl. split_and!.
      * intros p. split; [by intros ?%elem_of_nil|].
        intros (k & ->%list_elem_of_singleton & Hp).
        unfold directPermissions in Hp. rewrite Hrole in Hp.
        by apply elem_of_nil in Hp.
      * intros k ->%list_elem_of_singleton. apply rtc_refl.
      * set_solver.
      * intros k parent ->%list_elem_of_singleton (role & Hrole' & _).
        congruence.
      * set_solver.
Qed.

Lemma rolePermissions_graph
    (rolesMap : gmap string IRoleRead.t) (roleKey : string) :
  NoDup (rolePermissions roleKey rolesMap)
  ∧ ∀ p, p ∈ rolePermissions roleKey rolesMap ↔
         ∃ ancestor,
           inherits rolesMap roleKey ancestor
           ∧ p ∈ directPermissions rolesMap ancestor.
Proof.
  destruct (getRolePermissions_terminates rolesMap roleKey)
    as (ps & v' & e & Hrun & <-).
  pose proof (getRolePermissions_sound _ _ _ _ _ Hrun)
    as (Hps & Hreach & Hin & Hclosed & Hv').
  assert (∀ k ancestor, k ∈ e → inherits rolesMap k ancestor → ancestor ∈ e)
    as Hall.
  { intros k ancestor Hk Hrtc. induction Hrtc as [|k parent ancestor Hstep _ IH];
      [done|].
    apply IH. apply (Hclosed _ _ Hk) in Hstep. set_solver. }
  split.
  - unfold getRolePermissions, closureFuel in Hrun.
    fold getRolePermissions in Hrun.
    case_decide; [set_solver|].
    destruct (rolesMap !! roleKey).
    + destruct (forParents _ _ _ _ _) as [[[pp ?] ?]|]; simpl in Hrun; [|done].
      injection Hrun as <- _ _. apply NoDup_dedupe.
    + injection Hrun as <- _ _. constructor.
  - intros p. rewrite Hps. split.
    + intros (k & Hk & Hp). eauto.
    + intros (ancestor & Hrtc & Hp). exists ancestor. split; [|done].
      eapply Hall; [|exact Hrtc]. set_solver.
Qed.

(** X1. Whatever the table (cycles, diamonds, parents that are missing from
    it), the closure computed for a role key from an empty visited set holds
    exactly the direct permissions of the roles reached from that key along
    [extends], each permission once. *)
Theorem rolePermissions_reachable
    (rolesMap : gmap string IRoleRead.t) (roleKey : string) :
  NoDup (rolePermissions roleKey rolesMap)
  ∧ ∀ p, p ∈ rolePermissions roleKey rolesMap ↔
         ∃ ancestor,
           inherits rolesMap roleKey ancestor
           ∧ p ∈ directPermissions rolesMap ancestor.
Proof. apply rolePermissions_graph. Qed.

Lemma grants_mono (granted granted' : list string) requiredPermission
    resourceType :
  (∀ p, p ∈ granted → p ∈ granted') →
  grants granted requiredPermission resourceType = true →
  grants granted' requiredPermission resourceType = true.
Proof.
  unfold grants, JS.includes. intros Hsub.
  rewrite !orb_true_iff, !bool_decide_eq_true. naive_solver.
Qed.

(** X2. A role grants whatever any role it inherits from grants: the
    closure of an ancestor is contained in the closure of the role, and a
    required permission that the ancestor's closure matches is matched by
    the role's closure too. *)
Theorem inherited_permissions_included
    (rolesMap : gmap string IRoleRead.t) (roleKey ancestor : string) :
  inherits rolesMap roleKey ancestor →
  (∀ p, p ∈ rolePermissions ancestor rolesMap →
        p ∈ rolePermissions roleKey rolesMap)
  ∧ (∀ requiredPermission resourceType,
       grants (rolePermissions ancestor rolesMap) requiredPermission
         resourceType = true →
       grants (rolePermissions roleKey rolesMap) requiredPermission
         resourceType = true).
Proof.
  intros Hrtc.
  assert (∀ p, p ∈ rolePermissions ancestor rolesMap →
               p ∈ rolePermissions roleKey rolesMap) as Hsub.
  { intros p.
    rewrite !(proj2 (rolePermissions_graph rolesMap _)).
    intros (k & Hk & Hp). exists k. split; [|done].
    by eapply rtc_trans. }
  split; [exact Hsub|]. intros ? ?. by apply grants_mono.
Qed.

Lemma inherited_permissions_included_witness :
  grants (rolePermissions "admin" chainTable) "document:read" "document"
  = true.
Proof.
  refine (proj2 (inherited_permissions_included chainTable "admin" "viewer" _)
            "document:read" "document" _).
  - eapply rtc_l; [exists admin; split; [reflexivity|]|].
    { apply list_elem_of_singleton. reflexivity. }
    eapply rtc_l; [exists editor; split; [reflexivity|]|apply rtc_refl].
    apply list_elem_of_singleton. reflexivity.
  - vm_compute. reflexivity.
Defined.

(** ** The decision of a check *)

(** The run of a check whose two list requests are answered and whose
    lookup holds an assignment. *)
Lemma checkWithDetails_full request w this calls assignments roles :
  let userKey := getUserKey (ICheckRequest.user request) in
  let resourceType := extractResourceType (ICheckRequest.resource request) in
  let requiredPermission :=
    resourceType +:+ ":" +:+ ICheckRequest.action request in
  let scoped := ensureScope w this calls in
  let rolesMap := buildRolesMap (default [] (IRoleList.data roles)) in
  let matching :=
    filter (λ roleKey,
              grants (rolePermissions roleKey rolesMap) requiredPermission
                resourceType = true)
      (JS.dedupe
         (IRoleAssignmentRead.role
            <$> default [] (IRoleAssignmentList.data assignments))) in
  outcome scoped = Returned tt →
  roleAssignmentsList w userKey (ICheckRequest.tenant request)
    = inr assignments →
  noAssignments assignments = false →
  rolesList w 100 = inr roles →
  checkWithDetails request w this calls
  = {| outcome :=
         Returned
           {| ICheckResponse.allowed := bool_decide (0 < length matching);
              ICheckResponse.reason :=
                Some (if bool_decide (0 < length matching)
                      then "Granted by role(s): " +:+ JS.join ", " matching
                      else "No role grants permission "
                           +:+ requiredPermission);
              ICheckResponse.debug :=
                Some {| Debug.matchedRoles := matching;
                        Debug.matchedPermissions :=
                          replicate (length matching) requiredPermission;
                        Debug.evaluationTime := 0 |} |};
       instance := instance scoped;
       sent := sent scoped
               ++ [ListRoleAssignments userKey (ICheckRequest.tenant request);
                   ListRoles 100] |}.
Proof.
  intros userKey resourceType requiredPermission scoped rolesMap matching
    Hscope Hlookup Hsome Hroles.
  rewrite checkWithDetails_scoped by exact Hscope.
  unfold tryCatch, checkBody, bind, roleAssignments_list, roles_list, send.
  simpl. fold userKey. rewrite Hlookup. simpl. rewrite Hsome. simpl.
  rewrite Hroles. simpl.
  fold resourceType. fold requiredPermission. fold rolesMap.
  rewrite matchRoles_filter. simpl. fold matching.
  by rewrite <- app_assoc.
Qed.

Lemma grants_iff (granted : list string) requiredPermission resourceType :
  grants granted requiredPermission resourceType = true
  ↔ ∃ p, p ∈ granted
         ∧ (p = requiredPermission ∨ p = resourceType +:+ ":*" ∨ p = "*:*").
Proof.
  unfold grants, JS.includes.
  rewrite !orb_true_iff, !bool_decide_eq_true. naive_solver.
Qed.

Lemma assigned_role_keys (data : list IRoleAssignmentRead.t) roleKey :
  roleKey ∈ JS.dedupe (IRoleAssignmentRead.role <$> data)
  ↔ ∃ a, a ∈ data ∧ IRoleAssignmentRead.role a = roleKey.
Proof. rewrite elem_of_dedupe, list_elem_of_fmap. naive_solver. Qed.

(** X3. When both list requests are answered and the lookup holds an
    assignment, the check returns a decision, and it allows exactly when
    some assigned role reaches, along [extends] in the fetched table, a role
    that directly holds the required permission, the wildcard of the
    resource type, or the full wildcard. *)
Theorem check_allowed_iff_granted
    (request : ICheckRequest.t) (w : World) (this : Permissio.t)
    (calls : list Call) (assignments : IRoleAssignmentList.t)
    (roles : IRoleList.t) :
  let userKey := getUserKey (ICheckRequest.user request) in
  let resourceType := extractResourceType (ICheckRequest.resource request) in
  let requiredPermission :=
    resourceType +:+ ":" +:+ ICheckRequest.action request in
  let rolesMap := buildRolesMap (default [] (IRoleList.data roles)) in
  outcome (ensureScope w this calls) = Returned tt →
  roleAssignmentsList w userKey (ICheckRequest.tenant request)
    = inr assignments →
  noAssignments assignments = false →
  rolesList w 100 = inr roles →
  ∃ d,
    outcome (checkWithDetails request w this calls) = Returned d
    ∧ (ICheckResponse.allowed d = true ↔
       ∃ a ancestor p,
         a ∈ default [] (IRoleAssignmentList.data assignments)
         ∧ inherits rolesMap (IRoleAssignmentRead.role a) ancestor
         ∧ p ∈ directPermissions rolesMap ancestor
         ∧ (p = requiredPermission ∨ p = resourceType +:+ ":*"
            ∨ p = "*:*")).
Proof.
  intros userKey resourceType requiredPermission rolesMap
    Hscope Hlookup Hsome Hroles.
  rewrite (checkWithDetails_full _ _ _ _ _ _ Hscope Hlookup Hsome Hroles).
  eexists. split; [reflexivity|]. simpl.
  fold resourceType requiredPermission rolesMap.
  rewrite bool_decide_eq_true. split.
  - intros Hlen.
    destruct (filter _ _) as [|k matching] eqn:Hf; [simpl in Hlen; lia|].
    assert (k ∈ k :: matching) as Hk by left.
    rewrite <- Hf in Hk. apply list_elem_of_filter in Hk as [Hg Hk].
    apply assigned_role_keys in Hk as (a & Ha & <-).
    apply grants_iff in Hg as (p & Hp & Hmatch).
    apply (proj2 (rolePermissions_graph rolesMap _)) in Hp
      as (ancestor & Hrtc & Hp).
    eauto 10.
  - intros (a & ancestor & p & Ha & Hrtc & Hp & Hmatch).
    assert (IRoleAssignmentRead.role a
            ∈ filter (λ roleKey,
                        grants (rolePermissions roleKey rolesMap)
                          requiredPermission resourceType = true)
                (JS.dedupe
                   (IRoleAssignmentRead.role
                      <$> default [] (IRoleAssignmentList.data assignments))))
      as Hin.
    { apply list_elem_of_filter. split.
      - apply grants_iff. exists p. split; [|done].
        apply (proj2 (rolePermissions_graph rolesMap _)). eauto.
      - apply assigned_role_keys. eauto. }
    destruct (filter _ _); [by apply elem_of_nil in Hin|simpl; lia].
Qed.

Lemma check_allowed_iff_granted_witness :
  ∃ d,
    outcome (checkWithDetails (exampleRequest "u1" "write") exampleWorld
               (Permissio.new exampleConfig) []) = Returned d
    ∧ (ICheckResponse.allowed d = true ↔
       ∃ a ancestor p,
         a ∈ [IRoleAssignmentRead.mk "u1" "admin" None None None;
              IRoleAssignmentRead.mk "u1" "admin" (Some "t") None None]
         ∧ inherits chainTable (IRoleAssignmentRead.role a) ancestor
         ∧ p ∈ directPermissions chainTable ancestor
         ∧ (p = "document:write" ∨ p = "document:*" ∨ p = "*:*")).
Proof.
  apply (check_allowed_iff_granted (exampleRequest "u1" "write") exampleWorld
           (Permissio.new exampleConfig) []
           (IRoleAssignmentList.mk
              (Some [IRoleAssignmentRead.mk "u1" "admin" None None None;
                     IRoleAssignmentRead.mk "u1" "admin" (Some "t")
                       None None]))
           (IRoleList.mk (Some [admin; editor; viewer])));
    vm_compute; reflexivity.
Defined.

(** X4. The explanation of a full decision: [matchedRoles] lists, without
    repetition, exactly the assigned role keys whose closure passes the
    match; [matchedPermissions] repeats the required permission once for
    each of them; the decision allows exactly when [matchedRoles] is not
    empty. *)
Theorem check_matched_roles
    (request : ICheckRequest.t) (w : World) (this : Permissio.t)
    (calls : list Call) (assignments : IRoleAssignmentList.t)
    (roles : IRoleList.t) :
  let userKey := getUserKey (ICheckRequest.user request) in
  let resourceType := extractResourceType (ICheckRequest.resource request) in
  let requiredPermission :=
    resourceType +:+ ":" +:+ ICheckRequest.action request in
  let rolesMap := buildRolesMap (default [] (IRoleList.data roles)) in
  outcome (ensureScope w this calls) = Returned tt →
  roleAssignmentsList w userKey (ICheckRequest.tenant request)
    = inr assignments →
  noAssignments assignments = false →
  rolesList w 100 = inr roles →
  ∃ d dbg,
    outcome (checkWithDetails request w this calls) = Returned d
    ∧ ICheckResponse.debug d = Some dbg
    ∧ NoDup (Debug.matchedRoles dbg)
    ∧ (∀ roleKey,
         roleKey ∈ Debug.matchedRoles dbg ↔
         (∃ a, a ∈ default [] (IRoleAssignmentList.data assignments)
               ∧ IRoleAssignmentRead.role a = roleKey)
         ∧ grants (rolePermissions roleKey rolesMap) requiredPermission
             resourceType = true)
    ∧ Debug.matchedPermissions dbg
      = replicate (length (Debug.matchedRoles dbg)) requiredPermission
    ∧ (ICheckResponse.allowed d = true ↔ Debug.matchedRoles dbg ≠ []).
Proof.
  intros userKey resourceType requiredPermission rolesMap
    Hscope Hlookup Hsome Hroles.
  rewrite (checkWithDetails_full _ _ _ _ _ _ Hscope Hlookup Hsome Hroles).
  eexists _, _. split; [reflexivity|]. split; [reflexivity|]. simpl.
  fold resourceType requiredPermission rolesMap.
  split_and!.
  - apply NoDup_filter, NoDup_dedupe.
  - intros roleKey. rewrite list_elem_of_filter, assigned_role_keys. tauto.
  - reflexivity.
  - rewrite bool_decide_eq_true.
    destruct (filter _ _); simpl; split; try done; lia.
Qed.

Lemma check_matched_roles_witness :
  ∃ d dbg,
    outcome (checkWithDetails (exampleRequest "u1" "write") exampleWorld
               (Permissio.new exampleConfig) []) = Returned d
    ∧ ICheckResponse.debug d = Some dbg
    ∧ NoDup (Debug.matchedRoles dbg)
    ∧ (∀ roleKey,
         roleKey ∈ Debug.matchedRoles dbg ↔
         (∃ a, a ∈ [IRoleAssignmentRead.mk "u1" "admin" None None None;
                    IRoleAssignmentRead.mk "u1" "admin" (Some "t") None None]
               ∧ IRoleAssignmentRead.role a = roleKey)
         ∧ grants (rolePermissions roleKey chainTable) "document:write"
             "document" = true)
    ∧ Debug.matchedPermissions dbg
      = replicate (length (Debug.matchedRoles dbg)) "document:write"
    ∧ (ICheckResponse.allowed d = true ↔ Debug.matchedRoles dbg ≠ []).
Proof.
  apply (check_matched_roles (exampleRequest "u1" "write") exampleWorld
           (Permissio.new exampleConfig) []
           (IRoleAssignmentList.mk
              (Some [IRoleAssignmentRead.mk "u1" "admin" None None None;
                     IRoleAssignmentRead.mk "u1" "admin" (Some "t")
                       None None]))
           (IRoleList.mk (Some [admin; editor; viewer])));
    vm_compute; reflexivity.
Defined.

Lemma ensureScope_world w1 w2 this calls :
  apiKeyScope w1 = apiKeyScope w2 →
  ensureScope w1 this calls = ensureScope w2 this calls.
Proof. intros H. unfold ensureScope. by rewrite H. Qed.

Lemma noAssignments_roles (a1 a2 : IRoleAssignmentList.t) :
  fmap (M := list) IRoleAssignmentRead.role <$> IRoleAssignmentList.data a1
  = fmap (M := list) IRoleAssignmentRead.role <$> IRoleAssignmentList.data a2 →
  noAssignments a1 = noAssignments a2.
Proof.
  unfold noAssignments.
  destruct (IRoleAssignmentList.data a1) as [d1|],
    (IRoleAssignmentList.data a2) as [d2|]; simpl; try done.
  intros [= H]. apply (f_equal length) in H. rewrite !length_fmap in H.
  by rewrite H.
Qed.

(** X5. The decision reads nothing of an assignment but its role: two
    stores that answer the lookup with assignments of the same roles in the
    same order, whatever their tenant, resource and resource instance, and
    that agree on the scope and on the role table, lead the same check to
    the same outcome. *)
Theorem assignment_scope_ignored
    (request : ICheckRequest.t) (w1 w2 : World) (this : Permissio.t)
    (calls : list Call) (a1 a2 : IRoleAssignmentList.t) :
  let userKey := getUserKey (ICheckRequest.user request) in
  apiKeyScope w1 = apiKeyScope w2 →
  rolesList w1 100 = rolesList w2 100 →
  roleAssignmentsList w1 userKey (ICheckRequest.tenant request) = inr a1 →
  roleAssignmentsList w2 userKey (ICheckRequest.tenant request) = inr a2 →
  fmap (M := list) IRoleAssignmentRead.role <$> IRoleAssignmentList.data a1
  = fmap (M := list) IRoleAssignmentRead.role <$> IRoleAssignmentList.data a2 →
  checkWithDetails request w1 this calls
  = checkWithDetails request w2 this calls.
Proof.
  intros userKey Hscope Hroles H1 H2 Hsame.
  unfold checkWithDetails, bind.
  rewrite (ensureScope_world w1 w2) by done.
  destruct (outcome (ensureScope w2 this calls)); [|done..].
  unfold tryCatch, checkBody, bind, roleAssignments_list, roles_list, send.
  simpl. fold userKey. rewrite H1, H2. simpl.
  rewrite (noAssignments_roles a1 a2 Hsame).
  destruct (noAssignments a2); [done|]. simpl. rewrite Hroles.
  assert (IRoleAssignmentRead.role
            <$> default [] (IRoleAssignmentList.data a1)
          = IRoleAssignmentRead.role
              <$> default [] (IRoleAssignmentList.data a2)) as ->.
  { destruct (IRoleAssignmentList.data a1), (IRoleAssignmentList.data a2);
      simpl in *; congruence. }
  destruct (rolesList w2 100); simpl;
    unfold checkHandler, bind, getConfig, throw, ret; simpl;
    repeat case_match; done.
Qed.

Lemma assignment_scope_ignored_witness :
  checkWithDetails (exampleRequest "u1" "read") exampleWorld
    (Permissio.new exampleConfig) []
  = checkWithDetails (exampleRequest "u1" "read") relabelledWorld
      (Permissio.new exampleConfig) [].
Proof.
  refine (assignment_scope_ignored (exampleRequest "u1" "read")
            exampleWorld relabelledWorld (Permissio.new exampleConfig) []
            _ _ _ _ _ _ _); reflexivity.
Defined.

(** X6. The decision reads nothing of the request but the user key, the
    action, the tenant and the resource type: requests that agree on these
    (whatever their resource instance key, resource tenant or user
    attributes) run to the same outcome with the same requests sent. *)
Theorem check_ignores_instance_key
    (request1 request2 : ICheckRequest.t) (w : World) (this : Permissio.t)
    (calls : list Call) :
  getUserKey (ICheckRequest.user request1)
  = getUserKey (ICheckRequest.user request2) →
  ICheckRequest.action request1 = ICheckRequest.action request2 →
  ICheckRequest.tenant request1 = ICheckRequest.tenant request2 →
  extractResourceType (ICheckRequest.resource request1)
  = extractResourceType (ICheckRequest.resource request2) →
  checkWithDetails request1 w this calls
  = checkWithDetails request2 w this calls.
Proof.
  intros Huser Haction Htenant Htype.
  unfold checkWithDetails, bind, tryCatch, checkBody, bind.
  by rewrite Huser, Haction, Htenant, Htype.
Qed.

Lemma check_ignores_instance_key_witness :
  checkWithDetails
    (ICheckRequest.mk (UserString "u1") "read"
       (ResourceString "document:doc-1") None)
    exampleWorld (Permissio.new exampleConfig) []
  = checkWithDetails
      (ICheckRequest.mk (UserObject (ICheckUser.mk "u1")) "read"
         (ResourceObject
            (ICheckResource.mk "document" (Some "doc-2") (Some "t")))
         None)
      exampleWorld (Permissio.new exampleConfig) [].
Proof.
  refine (check_ignores_instance_key _ _ exampleWorld
            (Permissio.new exampleConfig) [] _ _ _ _); reflexivity.
Defined.

(** X7. A check sends, after what [ensureScope] sent (the scope request or
    nothing), at most the lookup and then at most one request for the role
    table, with [perPage] 100, however many roles are assigned; and it
    leaves the instance as [ensureScope] left it. *)
Theorem check_requests
    (request : ICheckRequest.t) (w : World) (this : Permissio.t)
    (calls : list Call) :
  let lookup :=
    ListRoleAssignments (getUserKey (ICheckRequest.user request))
      (ICheckRequest.tenant request) in
  let scoped := ensureScope w this calls in
  let r := checkWithDetails request w this calls in
  instance r = instance scoped
  ∧ (sent scoped = calls ∨ sent scoped = calls ++ [GetApiKeyScope])
  ∧ (sent r = sent scoped
     ∨ sent r = sent scoped ++ [lookup]
     ∨ sent r = sent scoped ++ [lookup; ListRoles 100]).
Proof.
  intros lookup scoped r. subst r.
  assert (∀ this1 calls1,
            let b := tryCatch (checkBody request) checkHandler w this1 calls1 in
            instance b = this1
            ∧ (sent b = calls1 ++ [lookup]
               ∨ sent b = calls1 ++ [lookup; ListRoles 100])) as Hbody.
  { intros this1 calls1.
    unfold tryCatch, checkBody, bind, roleAssignments_list, roles_list, send.
    simpl. fold lookup.
    destruct (roleAssignmentsList w _ _) as [error|assignments]; simpl.
    - unfold checkHandler, bind, getConfig, throw, ret. simpl.
      destruct (MutableConfig.throwOnError _); simpl; auto.
    - destruct (noAssignments assignments); simpl; [auto|].
      rewrite <- app_assoc. simpl.
      destruct (rolesList w 100) as [error|roles]; simpl.
      + unfold checkHandler, bind, getConfig, throw, ret. simpl.
        destruct (MutableConfig.throwOnError _); simpl; auto.
      + destruct (matchRoles _ _ _ _ _ _). simpl. auto. }
  split_and!; [|apply ensureScope_sent|];
    unfold checkWithDetails, bind; fold scoped;
    destruct (outcome scoped); simpl; auto.
  - apply Hbody.
  - destruct (Hbody (instance scoped) (sent scoped)) as [_ [H|H]]; auto.
Qed.

(** ** All permissions of a user *)

Lemma elem_of_collectPermissions roleKeys rolesMap allPermissions p :
  p ∈ collectPermissions roleKeys rolesMap allPermissions
  ↔ p ∈ allPermissions
    ∨ ∃ roleKey, roleKey ∈ roleKeys ∧ p ∈ rolePermissions roleKey rolesMap.
Proof.
  revert allPermissions.
  induction roleKeys as [|k roleKeys IH]; intros allPermissions; simpl.
  - split; [by left|]. intros [?|(k & ?%elem_of_nil & _)]; done.
  - rewrite IH, elem_of_app. split.
    + intros [[?|?]|(k' & ? & ?)]; [by left|right..].
      * exists k. split; [by left|done].
      * exists k'. split; [by right|done].
    + intros [?|(k' & [->|?]%elem_of_cons & ?)]; [by left; left|by left; right|].
      right. eauto.
Qed.

Lemma roleAssignments_listFor_run filtered request w this calls :
  roleAssignments_listFor filtered (IGetPermissionsRequest.user request)
    (IGetPermissionsRequest.tenant request)
    (IGetPermissionsRequest.resource request) w this calls
  = {| outcome := match permissionsLookup filtered w request with
                  | inl error => Threw error
                  | inr a => Returned a
                  end;
       instance := this;
       sent := calls
               ++ [ListRoleAssignments (IGetPermissionsRequest.user request)
                     (IGetPermissionsRequest.tenant request)] |}.
Proof.
  unfold roleAssignments_listFor, permissionsLookup, roleAssignments_list, send.
  by destruct (IGetPermissionsRequest.resource request).
Qed.

Lemma getPermissions_scoped filtered request w this calls :
  outcome (ensureScope w this calls) = Returned tt →
  getPermissions filtered request w this calls
  = tryCatch (permissionsBody filtered request) permissionsHandler w
      (instance (ensureScope w this calls))
      (sent (ensureScope w this calls)).
Proof. intros H. unfold getPermissions, bind. by rewrite H. Qed.

(** X8. When both list requests are answered and the lookup holds an
    assignment, [getPermissions] returns the assigned role keys, each once
    in the order of their first assignment, and a duplicate-free array that
    holds exactly the direct permissions of every role reached from an
    assigned role along [extends] in the fetched table. *)
Theorem getPermissions_union
    (filtered : string → option string → string
                → Thrown + IRoleAssignmentList.t)
    (request : IGetPermissionsRequest.t) (w : World) (this : Permissio.t)
    (calls : list Call) (assignments : IRoleAssignmentList.t)
    (roles : IRoleList.t) :
  let rolesMap := buildRolesMap (default [] (IRoleList.data roles)) in
  let data := default [] (IRoleAssignmentList.data assignments) in
  outcome (ensureScope w this calls) = Returned tt →
  permissionsLookup filtered w request = inr assignments →
  noAssignments assignments = false →
  rolesList w 100 = inr roles →
  ∃ g,
    outcome (getPermissions filtered request w this calls) = Returned g
    ∧ IGetPermissionsResponse.roles g
      = JS.dedupe (IRoleAssignmentRead.role <$> data)
    ∧ NoDup (IGetPermissionsResponse.roles g)
    ∧ NoDup (IGetPermissionsResponse.permissions g)
    ∧ ∀ p, p ∈ IGetPermissionsResponse.permissions g ↔
           ∃ a ancestor,
             a ∈ data
             ∧ inherits rolesMap (IRoleAssignmentRead.role a) ancestor
             ∧ p ∈ directPermissions rolesMap ancestor.
Proof.
  intros rolesMap data Hscope Hlookup Hsome Hroles.
  rewrite getPermissions_scoped by exact Hscope.
  unfold tryCatch, permissionsBody, bind.
  rewrite roleAssignments_listFor_run, Hlookup. simpl. rewrite Hsome.
  unfold roles_list, send. simpl. rewrite Hroles. simpl.
  eexists. split; [reflexivity|]. simpl. fold rolesMap data.
  split_and!; [done|apply NoDup_dedupe..|].
  intros p. rewrite elem_of_dedupe, elem_of_collectPermissions. split.
  - intros [?%elem_of_nil|(k & Hk & Hp)]; [done|].
    apply assigned_role_keys in Hk as (a & Ha & <-).
    apply (proj2 (rolePermissions_graph rolesMap _)) in Hp
      as (ancestor & Hrtc & Hp).
    eauto.
  - intros (a & ancestor & Ha & Hrtc & Hp). right.
    exists (IRoleAssignmentRead.role a). split.
    + apply assigned_role_keys. eauto.
    + apply (proj2 (rolePermissions_graph rolesMap _)). eauto.
Qed.

Lemma getPermissions_union_witness :
  ∃ g,
    outcome (getPermissions (λ _ _ _, inl networkError)
               (IGetPermissionsRequest.mk "u1" None None) exampleWorld
               (Permissio.new exampleConfig) []) = Returned g
    ∧ IGetPermissionsResponse.roles g = ["admin"]
    ∧ IGetPermissionsResponse.permissions g
      = ["document:delete"; "document:read"; "document:write"].
Proof.
  destruct (getPermissions_union (λ _ _ _, inl networkError)
              (IGetPermissionsRequest.mk "u1" None None) exampleWorld
              (Permissio.new exampleConfig) []
              (IRoleAssignmentList.mk
                 (Some [IRoleAssignmentRead.mk "u1" "admin" None None None;
                        IRoleAssignmentRead.mk "u1" "admin" (Some "t")
                          None None]))
              (IRoleList.mk (Some [admin; editor; viewer]))
              eq_refl eq_refl eq_refl eq_refl) as (g & Hg & _).
  exists g. split; [exact Hg|].
  vm_compute in Hg. injection Hg as <-. split; reflexivity.
Defined.

Lemma grants_collected roleKeys rolesMap requiredPermission resourceType :
  grants (JS.dedupe (collectPermissions roleKeys rolesMap []))
    requiredPermission resourceType
  = bool_decide
      (0 < length
             (filter (λ roleKey,
                        grants (rolePermissions roleKey rolesMap)
                          requiredPermission resourceType = true) roleKeys)).
Proof.
  apply eq_true_iff_eq. rewrite bool_decide_eq_true, grants_iff. split.
  - intros (p & Hp & Hmatch).
    apply elem_of_dedupe, elem_of_collectPermissions in Hp
      as [?%elem_of_nil|(k & Hk & Hp)]; [done|].
    assert (k ∈ filter (λ roleKey,
                          grants (rolePermissions roleKey rolesMap)
                            requiredPermission resourceType = true) roleKeys)
      as Hin.
    { apply list_elem_of_filter. split; [|done]. apply grants_iff. eauto. }
    destruct (filter _ _); [by apply elem_of_nil in Hin|simpl; lia].
  - intros Hlen.
    destruct (filter _ _) as [|k matching] eqn:Hf; [simpl in Hlen; lia|].
    assert (k ∈ k :: matching) as Hk by left.
    rewrite <- Hf in Hk. apply list_elem_of_filter in Hk as [Hg Hk].
    apply grants_iff in Hg as (p & Hp & Hmatch).
    exists p. split; [|done].
    apply elem_of_dedupe, elem_of_collectPermissions. eauto.
Qed.

(** X9. [checkWithDetails] and [getPermissions] agree. For the same user
    key and tenant and no resource filter, on the same store and instance,
    both return or both throw the same error; and when they return, the
    check allows exactly when the permissions that [getPermissions] lists
    pass the match for the required permission. *)
Theorem check_agrees_with_getPermissions
    (filtered : string → option string → string
                → Thrown + IRoleAssignmentList.t)
    (request : ICheckRequest.t) (w : World) (this : Permissio.t)
    (calls : list Call) :
  let resourceType := extractResourceType (ICheckRequest.resource request) in
  let requiredPermission :=
    resourceType +:+ ":" +:+ ICheckRequest.action request in
  let query :=
    IGetPermissionsRequest.mk (getUserKey (ICheckRequest.user request))
      (ICheckRequest.tenant request) None in
  match outcome (checkWithDetails request w this calls),
        outcome (getPermissions filtered query w this calls) with
  | Returned d, Returned g =>
      ICheckResponse.allowed d
      = grants (IGetPermissionsResponse.permissions g) requiredPermission
          resourceType
  | Threw e, Threw e' => e = e'
  | Awaiting p, Awaiting p' => p = p'
  | _, _ => False
  end.
Proof.
  intros resourceType requiredPermission query.
  unfold checkWithDetails, getPermissions, bind.
  destruct (outcome (ensureScope w this calls)) as [[]|e|p]; simpl;
    [|done..].
  unfold tryCatch, checkBody, permissionsBody, bind.
  rewrite roleAssignments_listFor_run.
  unfold permissionsLookup, roleAssignments_list, roles_list, send. simpl.
  destruct (roleAssignmentsList w _ _) as [e|assignments]; simpl.
  - unfold checkHandler, permissionsHandler, bind, getConfig, throw, ret.
    simpl. by destruct (MutableConfig.throwOnError _).
  - destruct (noAssignments assignments); simpl; [done|].
    destruct (rolesList w 100) as [e|roles]; simpl.
    + unfold checkHandler, permissionsHandler, bind, getConfig, throw, ret.
      simpl. by destruct (MutableConfig.throwOnError _).
    + fold resourceType requiredPermission.
      rewrite matchRoles_filter. simpl. by rewrite grants_collected.
Qed.

(** X10. When the lookup of [getPermissions] holds no assignment, the
    answer is empty and the lookup is the last request sent: the role table
    is not asked for. When a list request fails, the answer is the same
    empty one if [throwOnError] is off, and the error is thrown on
    unchanged if it is on. *)
Theorem getPermissions_empty_answers
    (filtered : string → option string → string
                → Thrown + IRoleAssignmentList.t)
    (request : IGetPermissionsRequest.t) (w : World) (this : Permissio.t)
    (calls : list Call) :
  let scoped := ensureScope w this calls in
  let lookupCall :=
    ListRoleAssignments (IGetPermissionsRequest.user request)
      (IGetPermissionsRequest.tenant request) in
  let empty :=
    {| IGetPermissionsResponse.permissions := [];
       IGetPermissionsResponse.roles := [] |} in
  outcome scoped = Returned tt →
  (∀ assignments,
     permissionsLookup filtered w request = inr assignments →
     noAssignments assignments = true →
     getPermissions filtered request w this calls
     = {| outcome := Returned empty; instance := instance scoped;
          sent := sent scoped ++ [lookupCall] |})
  ∧ (∀ error,
       permissionsLookup filtered w request = inl error
       ∨ (∃ assignments,
            permissionsLookup filtered w request = inr assignments
            ∧ noAssignments assignments = false
            ∧ rolesList w 100 = inl error) →
       outcome (getPermissions filtered request w this calls)
       = if MutableConfig.throwOnError (Permissio.config this)
         then Threw error else Returned empty).
Proof.
  intros scoped lookupCall empty Hscope. split.
  - intros assignments Hlookup Hnone.
    rewrite getPermissions_scoped by exact Hscope.
    unfold tryCatch, permissionsBody, bind.
    rewrite roleAssignments_listFor_run, Hlookup. simpl. by rewrite Hnone.
  - intros error Herr.
    rewrite getPermissions_scoped by exact Hscope.
    rewrite <- (ensureScope_throwOnError w this calls).
    unfold tryCatch, permissionsBody, bind.
    rewrite roleAssignments_listFor_run.
    destruct Herr as [->|(assignments & -> & Hsome & Hroles)]; simpl.
    + unfold permissionsHandler, bind, getConfig, throw, ret. simpl.
      by destruct (MutableConfig.throwOnError _).
    + rewrite Hsome. unfold roles_list, send. simpl. rewrite Hroles. simpl.
      unfold permissionsHandler, bind, getConfig, throw, ret. simpl.
      by destruct (MutableConfig.throwOnError _).
Qed.

Lemma getPermissions_empty_answers_witness :
  getPermissions (λ _ _ _, inl networkError)
    (IGetPermissionsRequest.mk "u0" None None) exampleWorld
    (Permissio.new exampleConfig) []
  = {| outcome :=
         Returned {| IGetPermissionsResponse.permissions := [];
                     IGetPermissionsResponse.roles := [] |};
       instance :=
         instance (ensureScope exampleWorld (Permissio.new exampleConfig) []);
       sent := [GetApiKeyScope; ListRoleAssignments "u0" None] |}.
Proof.
  refine (proj1 (getPermissions_empty_answers (λ _ _ _, inl networkError)
                   (IGetPermissionsRequest.mk "u0" None None) exampleWorld
                   (Permissio.new exampleConfig) [] eq_refl)
            (IRoleAssignmentList.mk (Some [])) eq_refl eq_refl).
Defined.

(** ** Check and throw *)



(** ** More on the scope *)

Lemma hasScope_truthy c :
  MutableConfig.hasScope c = true
  ↔ JS.truthy (MutableConfig.projectId c) = true
    ∧ JS.truthy (MutableConfig.environmentId c) = true.
Proof. unfold MutableConfig.hasScope. apply andb_true_iff. Qed.

(** X12. [updateScope] is idempotent; it leaves a complete scope (both ids
    non-empty) exactly as it is; and it completes the scope whenever both
    fetched ids are non-empty. *)
Theorem updateScope_completes
    (c : MutableConfig.t) (projectId' environmentId' : option string) :
  MutableConfig.updateScope projectId' environmentId'
    (MutableConfig.updateScope projectId' environmentId' c)
  = MutableConfig.updateScope projectId' environmentId' c
  ∧ (MutableConfig.hasScope c = true →
     MutableConfig.updateScope projectId' environmentId' c = c)
  ∧ (JS.truthy projectId' = true → JS.truthy environmentId' = true →
     MutableConfig.hasScope
       (MutableConfig.updateScope projectId' environmentId' c) = true).
Proof.
  unfold MutableConfig.updateScope, MutableConfig.hasScope.
  destruct c as [t a p e d ti h r th]. simpl.
  destruct (JS.truthy projectId') eqn:Hp', (JS.truthy p) eqn:Hp,
    (JS.truthy environmentId') eqn:He', (JS.truthy e) eqn:He;
    repeat (progress (simpl; rewrite ?Hp, ?He, ?Hp', ?He'));
    unfold MutableConfig.setProjectId, MutableConfig.setEnvironmentId;
    repeat (progress (simpl; rewrite ?Hp, ?He, ?Hp', ?He'));
    split_and!; done.
Qed.

Lemma updateScope_completes_witness :
  MutableConfig.updateScope (Some "other") (Some "env") fullConfig
  = fullConfig
  ∧ MutableConfig.hasScope
      (MutableConfig.updateScope (Some "proj") (Some "env") exampleConfig)
    = true.
Proof.
  split.
  - exact (proj1 (proj2 (updateScope_completes fullConfig (Some "other")
                           (Some "env"))) eq_refl).
  - exact (proj2 (proj2 (updateScope_completes exampleConfig (Some "proj")
                           (Some "env"))) eq_refl eq_refl).
Defined.

Lemma ensureScope_returned w this calls :
  outcome (ensureScope w this calls) = Returned tt →
  ensureScope_entry (instance (ensureScope w this calls)) = EntryReturn.
Proof.
  unfold ensureScope.
  destruct (ensureScope_entry this) as [|p|] eqn:He; simpl; [done..|].
  unfold fetchAndSetScope_settle.
  destruct (apiKeyScope w) as [error|scope]; simpl.
  - destruct (MutableConfig.hasScope _); simpl; [|done]. intros _. done.
  - intros _. done.
Qed.

(** X13. Once [ensureScope] has returned, a later call on the instance
    returns at once: it sends nothing and changes nothing, whatever the
    store would answer, even if the scope request was answered without any
    id. *)
Theorem ensureScope_at_most_once
    (w w' : World) (this : Permissio.t) (calls calls' : list Call) :
  outcome (ensureScope w this calls) = Returned tt →
  ensureScope w' (instance (ensureScope w this calls)) calls'
  = {| outcome := Returned tt;
       instance := instance (ensureScope w this calls);
       sent := calls' |}.
Proof.
  intros H%ensureScope_returned. unfold ensureScope at 1. by rewrite H.
Qed.

Lemma ensureScope_at_most_once_witness :
  MutableConfig.hasScope
    (Permissio.config
       (instance (ensureScope unscopedWorld (Permissio.new exampleConfig) [])))
  = false
  ∧ sent (ensureScope exampleWorld
            (instance
               (ensureScope unscopedWorld (Permissio.new exampleConfig) []))
            [])
    = [].
Proof.
  split; [reflexivity|].
  exact (f_equal sent
           (ensureScope_at_most_once unscopedWorld exampleWorld
              (Permissio.new exampleConfig) [] [] eq_refl)).
Defined.

(** X14. A failed scope initialisation is not remembered: when
    [ensureScope], with no initialisation in flight, throws, the scope
    request was sent and failed, the instance is exactly as before, and the
    next call sends the scope request again. *)
Theorem ensureScope_failure_not_cached
    (w : World) (this : Permissio.t) (calls : list Call) (thrown : Thrown) :
  Permissio.scopeInitPromise this = None →
  outcome (ensureScope w this calls) = Threw thrown →
  instance (ensureScope w this calls) = this
  ∧ sent (ensureScope w this calls) = calls ++ [GetApiKeyScope]
  ∧ (∃ error, apiKeyScope w = inl error
              ∧ thrown = newError (scopeFailureMessage error))
  ∧ ∀ w' calls',
      sent (ensureScope w' this calls') = calls' ++ [GetApiKeyScope].
Proof.
  intros Hnone. unfold ensureScope.
  destruct (ensureScope_entry this) as [|p|] eqn:He; simpl; [done..|].
  unfold fetchAndSetScope_settle.
  destruct (apiKeyScope w) as [error|scope]; simpl; [|done].
  destruct (MutableConfig.hasScope _); simpl; [done|].
  intros [= <-]. split_and!.
  - destruct this as [c i p]. simpl in *. by subst.
  - done.
  - eauto.
  - intros w' calls'. by destruct (apiKeyScope w').
Qed.

Lemma ensureScope_failure_not_cached_witness :
  instance (ensureScope offlineWorld (Permissio.new partialConfig) [])
  = Permissio.new partialConfig
  ∧ sent (ensureScope exampleWorld (Permissio.new partialConfig) [])
    = [GetApiKeyScope].
Proof.
  destruct (ensureScope_failure_not_cached offlineWorld
              (Permissio.new partialConfig) []
              (newError (scopeFailureMessage networkError))
              eq_refl eq_refl) as (Hsame & _ & _ & Hagain).
  split; [exact Hsame|apply Hagain].
Defined.

(** X15. [getScope] never answers with an id other than a configured
    non-empty one. On a fresh instance it returns the configured ids without
    sending anything when both are configured; otherwise it sends the scope
    request and, when that is answered, returns for each id the configured
    value if that is non-empty, else the non-empty fetched one, else what
    was configured. *)
Theorem getScope_prefers_configuration
    (w : World) (config : MutableConfig.t) (calls : list Call)
    (scope : IApiKeyScope.t) :
  let pick (configured fetched : option string) :=
    if JS.truthy configured then configured
    else if JS.truthy fetched then fetched else configured in
  apiKeyScope w = inr scope →
  getScope w (Permissio.new config) calls
  = if MutableConfig.hasScope config
    then {| outcome :=
              Returned (MutableConfig.projectId config,
                        MutableConfig.environmentId config);
            instance := Permissio.new config;
            sent := calls |}
    else {| outcome :=
              Returned
                (pick (MutableConfig.projectId config)
                   (IApiKeyScope.project_id scope),
                 pick (MutableConfig.environmentId config)
                   (IApiKeyScope.environment_id scope));
            instance :=
              instance (ensureScope w (Permissio.new config) calls);
            sent := calls ++ [GetApiKeyScope] |}.
Proof.
  intros pick Hscope. unfold getScope, bind, ensureScope, ensureScope_entry.
  simpl. destruct (MutableConfig.hasScope config) eqn:Hhas; simpl; [done|].
  rewrite Hscope. simpl. unfold getConfig, ret. simpl.
  unfold MutableConfig.updateScope, pick.
  destruct config as [t a p e d ti h r th].
  unfold MutableConfig.hasScope in Hhas. simpl in *.
  destruct (JS.truthy (IApiKeyScope.project_id scope)) eqn:Hp',
    (JS.truthy p) eqn:Hp,
    (JS.truthy (IApiKeyScope.environment_id scope)) eqn:He',
    (JS.truthy e) eqn:He; try done;
    unfold MutableConfig.setProjectId, MutableConfig.setEnvironmentId;
    repeat (progress (simpl; rewrite ?Hp, ?He, ?Hp', ?He')); done.
Qed.

Lemma getScope_prefers_configuration_witness :
  outcome (getScope
             {| apiKeyScope :=
                  inr (IApiKeyScope.mk "org" (Some "p2") (Some "e2"));
                roleAssignmentsList := roleAssignmentsList exampleWorld;
                rolesList := rolesList exampleWorld |}
             (Permissio.new partialConfig) [])
  = Returned (Some "proj", Some "e2").
Proof.
  exact (f_equal outcome
           (getScope_prefers_configuration
              {| apiKeyScope :=
                   inr (IApiKeyScope.mk "org" (Some "p2") (Some "e2"));
                 roleAssignmentsList := roleAssignmentsList exampleWorld;
                 rolesList := rolesList exampleWorld |}
              partialConfig [] _ eq_refl)).
Defined.

(** ** More on several callers of [ensureScope] *)

Section event_loop_order.
Import EventLoop.

Lemma fetchAndSetScope_settle_initialized response this :
  Permissio.scopeInitialized this = true
  ∨ (fetchAndSetScope_settle response this).1 = inr tt →
  Permissio.scopeInitialized (fetchAndSetScope_settle response this).2 = true.
Proof.
  unfold fetchAndSetScope_settle. destruct response as [error|scope]; simpl.
  - destruct (MutableConfig.hasScope _); simpl; [done|]. by intros [?|?].
  - done.
Qed.

Lemma awaiting_after_insert (callers : list Caller) i j c p :
  <[i := c]> callers !! j = Some (Owner p)
  ∨ <[i := c]> callers !! j = Some (Joiner p) →
  c = Owner p ∨ c = Joiner p
  ∨ callers !! j = Some (Owner p) ∨ callers !! j = Some (Joiner p).
Proof.
  intros [[(-> & -> & _)|[_ H]]%list_lookup_insert_Some
         |[(-> & -> & _)|[_ H]]%list_lookup_insert_Some]; auto.
Qed.

Lemma step_orderly s ev s' :
  consistent s → orderly s → step s ev = Some s' → orderly s'.
Proof.
  intros (I1 & I2 & I3) (J1 & J2 & J3 & J4 & J5).
  destruct ev as [i|p response|i]; simpl.
  - destruct (callers s !! i) as [[]|] eqn:Hi; try done.
    destruct (ensureScope_entry (this s)) as [|p|] eqn:He;
      intros [= <-]; unfold orderly; simpl.
    + split_and!; try done.
      intros j q [?|[?|H]]%awaiting_after_insert; [done..|]. eauto.
    + unfold ensureScope_entry in He.
      destruct (_ || _); [done|].
      destruct (Permissio.scopeInitPromise (this s)) as [p'|] eqn:Hp;
        [|done].
      injection He as ->.
      split_and!; try done.
      intros j q [?|[[= <-]|H]]%awaiting_after_insert; [done|eauto..].
    + unfold ensureScope_entry in He.
      destruct (_ || _) eqn:Hor; [done|].
      destruct (Permissio.scopeInitPromise (this s)) eqn:Hp; [done|].
      apply orb_false_iff in Hor as [Hinit Hscope].
      rewrite length_app. simpl.
      split_and!.
      * rewrite J1. replace (length (promises s) + 1) with
          (S (length (promises s))) by lia.
        by rewrite replicate_S_end.
      * intros q Hq. apply lookup_app_Some in Hq as [Hq|[_ Hq]].
        -- apply J2 in Hq. congruence.
        -- destruct (q - length (promises s)); done.
      * intros q Hq. assert (q < length (promises s)) as Hlt by lia.
        rewrite lookup_app_l by done.
        destruct (lookup_lt_is_Some_2 _ _ Hlt) as [[| |error] Hstate].
        -- destruct (I1 _ Hstate) as [Hheld _]. congruence.
        -- apply J2 in Hstate. congruence.
        -- eauto.
      * intros q [= <-]. lia.
      * intros j q [[= <-]|[?|H]]%awaiting_after_insert; [lia|done|].
        apply J5 in H. lia.
  - destruct (promises s !! p) as [[]|] eqn:Hp; try done.
    pose proof (fetchAndSetScope_settle_promise response (this s)) as Hkeep.
    pose proof (fetchAndSetScope_settle_initialized response (this s))
      as Hinit.
    destruct (fetchAndSetScope_settle response (this s))
      as [result this'] eqn:Hsettle.
    simpl in Hkeep, Hinit.
    intros [= <-]; unfold orderly; simpl. rewrite length_insert.
    split_and!.
    + done.
    + intros q [(-> & Hq & _)|[Hne Hq]]%list_lookup_insert_Some.
      * apply Hinit. right. by destruct result as [?|[]].
      * apply Hinit. left. eauto.
    + intros q Hq. destruct (decide (p = q)) as [->|Hne].
      * destruct (J3 _ Hq) as [error Hrej]. exfalso.
        unfold PromiseRef in *. rewrite Hp in Hrej. discriminate.
      * rewrite list_lookup_insert_ne by done. eauto.
    + intros q. rewrite Hkeep. apply J4.
    + done.
  - destruct (callers s !! i) as [[|p|p|]|] eqn:Hi; try done.
    + destruct (promises s !! p ≫= settled) as [result|]; simpl; [|done].
      intros [= <-]; unfold orderly; simpl.
      split_and!; try done.
      intros j q [?|[?|H]]%awaiting_after_insert; [done..|]. eauto.
    + destruct (promises s !! p ≫= settled) as [result|]; simpl; [|done].
      intros [= <-]; unfold orderly; simpl.
      split_and!; try done.
      intros j q [?|[?|H]]%awaiting_after_insert; [done..|]. eauto.
Qed.

Lemma run_orderly events s s' :
  consistent s → orderly s → run s events = Some s' → orderly s'.
Proof.
  revert s. induction events as [|ev events IH]; intros s Hc Ho; simpl.
  - by intros [= <-].
  - destruct (step s ev) as [s1|] eqn:Hstep; simpl; [|done].
    apply IH; [eapply step_consistent|eapply step_orderly]; eauto.
Qed.

Lemma reachable_orderly config n s : reachable config n s → orderly s.
Proof.
  intros [events Hrun].
  eapply run_orderly; [apply init_consistent| |exact Hrun].
  unfold orderly. simpl. split_and!; try done.
  - intros p Hp. simpl in Hp. lia.
  - intros i p [[[=] _]%lookup_replicate|[[=] _]%lookup_replicate].
Qed.

(** Once the scope is initialised, no event makes the instance send. *)
Lemma step_initialized s ev s' :
  Permissio.scopeInitialized (this s) = true →
  step s ev = Some s' →
  Permissio.scopeInitialized (this s') = true ∧ requests s' = requests s.
Proof.
  intros Hinit. destruct ev as [i|p response|i]; simpl.
  - destruct (callers s !! i) as [[]|]; try done.
    unfold ensureScope_entry. rewrite Hinit. simpl. by intros [= <-].
  - destruct (promises s !! p) as [[]|]; try done.
    pose proof (fetchAndSetScope_settle_initialized response (this s)
                  (or_introl Hinit)) as Hkeep.
    destruct (fetchAndSetScope_settle response (this s)).
    by intros [= <-].
  - destruct (callers s !! i) as [[|p|p|]|]; try done;
      (destruct (promises s !! p ≫= settled); simpl; [|done]);
      by intros [= <-].
Qed.

Lemma run_initialized events s s' :
  Permissio.scopeInitialized (this s) = true →
  run s events = Some s' → requests s' = requests s.
Proof.
  revert s. induction events as [|ev events IH]; intros s Hinit; simpl.
  - by intros [= <-].
  - destruct (step s ev) as [s1|] eqn:Hstep; simpl; [|done].
    destruct (step_initialized _ _ _ Hinit Hstep) as [Hinit1 <-].
    by apply IH.
Qed.

End event_loop_order.

(** X16. However many callers invoke [ensureScope] on a fresh instance and
    in whatever order the events come: one scope request is sent per
    promise created; a further scope request is only ever sent after every
    earlier one has failed; and once a scope request has succeeded, no
    later event makes the instance send another. *)
Theorem scope_request_repeated_only_after_failure
    (config : MutableConfig.t) (n : nat) (s : EventLoop.t) :
  EventLoop.reachable config n s →
  EventLoop.scopeFetches s = length (EventLoop.promises s)
  ∧ (∀ p, S p < length (EventLoop.promises s) →
          ∃ error,
            EventLoop.promises s !! p = Some (EventLoop.Rejected error))
  ∧ (∀ p events s',
       EventLoop.promises s !! p = Some EventLoop.Fulfilled →
       EventLoop.run s events = Some s' →
       EventLoop.requests s' = EventLoop.requests s).
Proof.
  intros Hreach.
  destruct (reachable_orderly _ _ _ Hreach) as (J1 & J2 & J3 & _).
  split_and!; [|done|].
  - unfold EventLoop.scopeFetches. rewrite J1.
    generalize (length (EventLoop.promises s)). intros m.
    induction m as [|m IH]; [done|]. cbn [replicate].
    rewrite filter_cons_True by done. rewrite length_cons. by rewrite IH.
  - intros p events s' Hp. apply run_initialized. eauto.
Qed.

Lemma scope_request_repeated_only_after_failure_witness :
  ∃ s,
    EventLoop.run (EventLoop.init exampleConfig 3)
      [EventLoop.Invoke 0; EventLoop.Respond 0 (inl networkError);
       EventLoop.Resume 0; EventLoop.Invoke 1;
       EventLoop.Respond 1 (inr fetchedScope); EventLoop.Resume 1;
       EventLoop.Invoke 2] = Some s
    ∧ EventLoop.scopeFetches s = 2
    ∧ EventLoop.promises s
      = [EventLoop.Rejected (newError (scopeFailureMessage networkError));
         EventLoop.Fulfilled].
Proof.
  eexists. split; [vm_compute; reflexivity|]. split; [|reflexivity].
  refine (proj1 (scope_request_repeated_only_after_failure exampleConfig 3
                   _ _)).
  exists [EventLoop.Invoke 0; EventLoop.Respond 0 (inl networkError);
          EventLoop.Resume 0; EventLoop.Invoke 1;
          EventLoop.Respond 1 (inr fetchedScope); EventLoop.Resume 1;
          EventLoop.Invoke 2].
  vm_compute. reflexivity.
Defined.

(** X17. A caller suspended in [ensureScope] is never left behind: in
    every reachable state the promise it awaits exists, and as soon as that
    promise is settled the caller can run on and finishes with the promise's
    settlement, the owner and every joiner alike. *)
Theorem awaiting_callers_resume
    (config : MutableConfig.t) (n : nat) (s : EventLoop.t)
    (i : nat) (p : PromiseRef) :
  EventLoop.reachable config n s →
  EventLoop.callers s !! i = Some (EventLoop.Owner p)
  ∨ EventLoop.callers s !! i = Some (EventLoop.Joiner p) →
  ∃ state,
    EventLoop.promises s !! p = Some state
    ∧ ∀ result,
        EventLoop.settled state = Some result →
        ∃ s',
          EventLoop.step s (EventLoop.Resume i) = Some s'
          ∧ EventLoop.callers s' !! i = Some (EventLoop.Finished result).
Proof.
  intros Hreach Hi.
  destruct (reachable_orderly _ _ _ Hreach) as (_ & _ & _ & _ & J5).
  destruct (lookup_lt_is_Some_2 _ _ (J5 _ _ Hi)) as [state Hstate].
  exists state. split; [done|]. intros result Hres.
  assert (i < length (EventLoop.callers s)) as Hlen.
  { destruct Hi as [Hi|Hi]; by apply lookup_lt_Some in Hi. }
  unfold EventLoop.step, PromiseRef in *.
  destruct Hi as [Hi|Hi]; rewrite Hi, Hstate; cbn [mbind option_bind];
    rewrite Hres; cbn [mbind option_bind];
    eexists; (split; [reflexivity|]); cbn [EventLoop.callers];
    by apply list_lookup_insert_eq.
Qed.

Lemma awaiting_callers_resume_witness :
  ∃ s s',
    EventLoop.run (EventLoop.init exampleConfig 2)
      [EventLoop.Invoke 0; EventLoop.Invoke 1;
       EventLoop.Respond 0 (inl networkError)] = Some s
    ∧ EventLoop.step s (EventLoop.Resume 1) = Some s'
    ∧ EventLoop.callers s' !! 1
      = Some (EventLoop.Finished
                (inl (newError (scopeFailureMessage networkError)))).
Proof.
  eexists. 
  assert (EventLoop.reachable exampleConfig 2
            (EventLoop.mk (Permissio.setScopeInitPromise (Some 0)
                             (Permissio.new exampleConfig))
               [EventLoop.Rejected
                  (newError (scopeFailureMessage networkError))]
               [EventLoop.Owner 0; EventLoop.Joiner 0] [GetApiKeyScope]))
    as Hreach.
  { exists [EventLoop.Invoke 0; EventLoop.Invoke 1;
            EventLoop.Respond 0 (inl networkError)].
    vm_compute. reflexivity. }
  destruct (awaiting_callers_resume exampleConfig 2 _ 1 0 Hreach
              (or_intror eq_refl)) as (state & Hstate & Hresume).
  injection Hstate as <-.
  destruct (Hresume _ eq_refl) as (s' & Hstep & Hfin).
  exists s'. split; [vm_compute; reflexivity|]. split; [exact Hstep|exact Hfin].
Defined.

(** ** Strings *)

Lemma append_cons a s t : String a s +:+ t = String a (s +:+ t).
Proof. reflexivity. Qed.

Lemma append_nil s : EmptyString +:+ s = s.
Proof. reflexivity. Qed.

Lemma append_assoc (a b c : string) : (a +:+ b) +:+ c = a +:+ (b +:+ c).
Proof.
  induction a as [|x a IH]; [done|]. rewrite !append_cons. by f_equal.
Qed.

Lemma append_cancel (a b c : string) : a +:+ b = a +:+ c → b = c.
Proof.
  induction a as [|x a IH]; [done|]. rewrite !append_cons.
  intros [= H]. auto.
Qed.

Lemma startsWith_iff prefix s :
  Str.startsWith prefix s = true ↔ ∃ rest, s = prefix +:+ rest.
Proof.
  revert s. induction prefix as [|a prefix IH]; intros s.
  - split; [eauto|done].
  - destruct s as [|b s]; cbn [Str.startsWith].
    + split; [done|]. by intros [rest ?].
    + rewrite andb_true_iff, bool_decide_eq_true, IH. split.
      * intros [-> [rest ->]]. eauto.
      * intros [rest Hrest]. rewrite append_cons in Hrest.
        injection Hrest as -> ->. eauto.
Qed.

Lemma drop_append prefix rest :
  Str.drop (String.length prefix) (prefix +:+ rest) = rest.
Proof.
  induction prefix as [|a prefix IH]; [by destruct rest|].
  rewrite append_cons. exact IH.
Qed.

Lemma replace_at_start pattern rest :
  Str.replace pattern EmptyString (pattern +:+ rest) = rest.
Proof.
  assert (Str.startsWith pattern (pattern +:+ rest) = true) as H.
  { apply startsWith_iff. eauto. }
  assert (∀ s, Str.replace pattern EmptyString s
               = if Str.startsWith pattern s
                 then EmptyString +:+ Str.drop (String.length pattern) s
                 else match s with
                      | EmptyString => EmptyString
                      | String c s' =>
                          String c (Str.replace pattern EmptyString s')
                      end) as Hunfold by (by intros []).
  by rewrite Hunfold, H, drop_append.
Qed.

(** ** Configuration and construction *)

(** X18. [resolveConfig] accepts a configuration exactly when its token
    starts with [permis_key_], whatever follows, even nothing. An empty
    token is refused as missing, any other token as badly formatted. *)
Theorem resolveConfig_accepts (config : IPermissioConfig.t) :
  ((∃ resolved, resolveConfig config = inr resolved)
   ↔ ∃ key, IPermissioConfig.token config = "permis_key_" +:+ key)
  ∧ (IPermissioConfig.token config = EmptyString →
     resolveConfig config
     = inl (newError "Permissio.io SDK: API token is required"))
  ∧ (IPermissioConfig.token config ≠ EmptyString →
     (∀ key, IPermissioConfig.token config ≠ "permis_key_" +:+ key) →
     resolveConfig config
     = inl (newError
              "Permissio.io SDK: Invalid API key format. Expected format: permis_key_<key>")).
Proof.
  unfold resolveConfig. split_and!.
  - rewrite <- startsWith_iff.
    case_bool_decide as Hempty.
    + rewrite Hempty. split; [by intros [? ?]|done].
    + destruct (Str.startsWith _ _); simpl; split; eauto; try done.
      by intros [? ?].
  - intros ->. done.
  - intros Hne Hkey. rewrite bool_decide_eq_false_2 by done.
    destruct (Str.startsWith _ _) eqn:Hs; [|done].
    apply startsWith_iff in Hs as [key Hs]. by destruct (Hkey key).
Qed.

Lemma resolveConfig_accepts_witness :
  resolveConfig
    (IPermissioConfig.mk "permis_ke" None None None None None None None None)
  = inl (newError
           "Permissio.io SDK: Invalid API key format. Expected format: permis_key_<key>").
Proof.
  apply (proj2 (proj2 (resolveConfig_accepts
                         (IPermissioConfig.mk "permis_ke" None None None None
                            None None None None)))).
  - discriminate.
  - intros key. discriminate.
Defined.

Lemma app_singleton_neq {A} (l : list A) (x : A) : l ++ [x] ≠ l.
Proof.
  intros H. apply (f_equal length) in H. rewrite length_app in H.
  simpl in H. lia.
Qed.

(** X19. A client built from a configuration sends the scope request at
    its first [ensureScope] unless both ids were given non-empty; it throws
    on errors unless the caller said otherwise; and a value the caller gave
    is kept even when it is zero, false or empty, the defaults standing in
    only for what is absent. *)
Theorem createPermissio_fresh
    (config : IPermissioConfig.t) (this : Permissio.t) (w : World)
    (calls : list Call) :
  createPermissio config = inr this →
  (sent (ensureScope w this calls) = calls
   ↔ JS.truthy (IPermissioConfig.projectId config) = true
     ∧ JS.truthy (IPermissioConfig.environmentId config) = true)
  ∧ (sent (ensureScope w this calls) ≠ calls →
     sent (ensureScope w this calls) = calls ++ [GetApiKeyScope])
  ∧ MutableConfig.throwOnError (Permissio.config this)
    = default true (IPermissioConfig.throwOnError config)
  ∧ MutableConfig.retryAttempts (Permissio.config this)
    = default 3 (IPermissioConfig.retryAttempts config)
  ∧ MutableConfig.timeout (Permissio.config this)
    = default 30000%Z (IPermissioConfig.timeout config)
  ∧ MutableConfig.apiUrl (Permissio.config this)
    = default "https://api.permissio.io" (IPermissioConfig.apiUrl config)
  ∧ MutableConfig.customHeaders (Permissio.config this)
    = default ∅ (IPermissioConfig.customHeaders config).
Proof.
  unfold createPermissio, resolveConfig.
  case_bool_decide; [done|].
  destruct (Str.startsWith _ _); simpl; [|done].
  intros [= <-]. unfold ensureScope, ensureScope_entry. simpl.
  unfold MutableConfig.hasScope. simpl.
  split_and!; try done.
  - rewrite <- andb_true_iff.
    destruct (_ && _); simpl; [done|].
    destruct (fetchAndSetScope_settle _ _). simpl. split; [|done].
    intros H'. by apply app_singleton_neq in H'.
  - destruct (_ && _); simpl; [done|].
    by destruct (fetchAndSetScope_settle _ _).
  - unfold DEFAULT_CONFIG.customHeaders. by rewrite (right_id_L ∅ (∪)).
Qed.

Lemma createPermissio_fresh_witness :
  ∃ this,
    createPermissio
      (IPermissioConfig.mk "permis_key_0" None (Some "proj") None None
         (Some 0%Z) None (Some 0) (Some false)) = inr this
    ∧ sent (ensureScope exampleWorld this []) = [GetApiKeyScope]
    ∧ MutableConfig.retryAttempts (Permissio.config this) = 0
    ∧ MutableConfig.timeout (Permissio.config this) = 0%Z.
Proof.
  eexists. split; [reflexivity|].
  destruct (createPermissio_fresh
              (IPermissioConfig.mk "permis_key_0" None (Some "proj") None None
                 (Some 0%Z) None (Some 0) (Some false)) _ exampleWorld []
              eq_refl) as (_ & Hsent & _ & Hretry & Htimeout & _).
  split; [apply Hsent; discriminate|]. split; [exact Hretry|exact Htimeout].
Defined.

(** ** More on resource arguments *)

(** X20. The resource key that [getResourceKey] builds for a structured
    resource parses back: when neither the type nor the instance key holds a
    colon, the bare string yields the same type, and the same instance key
    if that is non-empty, none otherwise. *)
Theorem resource_key_round_trip (r : ICheckResource.t) :
  JS.contains ":" (ICheckResource.type r) = false →
  (∀ k, ICheckResource.key r = Some k → JS.contains ":" k = false) →
  extractResourceType (ResourceString (getResourceKey (ResourceObject r)))
  = ICheckResource.type r
  ∧ extractResourceInstanceKey
      (ResourceString (getResourceKey (ResourceObject r)))
    = if JS.truthy (ICheckResource.key r) then ICheckResource.key r else None.
Proof.
  intros Htype Hkey. unfold getResourceKey.
  destruct (ICheckResource.key r) as [k|] eqn:Hk; simpl.
  - case_bool_decide as Hempty; simpl.
    + by apply bare_string_without_colon.
    + split.
      * by apply extractResourceType_before_colon.
      * apply instance_key_one_colon; [done|]. by apply Hkey.
  - by apply bare_string_without_colon.
Qed.

Lemma resource_key_round_trip_witness :
  extractResourceType
    (ResourceString
       (getResourceKey
          (ResourceObject (ICheckResource.mk "document" (Some "doc-1") None))))
  = "document"
  ∧ extractResourceInstanceKey
      (ResourceString
         (getResourceKey
            (ResourceObject
               (ICheckResource.mk "document" (Some "doc-1") None))))
    = Some "doc-1".
Proof.
  refine (resource_key_round_trip
            (ICheckResource.mk "document" (Some "doc-1") None) eq_refl _).
  intros k [= <-]. reflexivity.
Defined.

Lemma split_parts sep s :
  ∃ first rest,
    JS.split sep s = first :: rest
    ∧ JS.contains sep first = false
    ∧ Forall (λ part, JS.contains sep part = false) rest
    ∧ Str.startsWith first s = true
    ∧ (rest = [] ↔ JS.contains sep s = false).
Proof.
  induction s as [|c s (first & rest & Hsplit & Hfirst & Hrest & Hpre & Hone)];
    simpl.
  - exists EmptyString, []. split_and!; done.
  - case_bool_decide as Hc; simpl.
    + exists EmptyString, (first :: rest). rewrite Hsplit.
      split_and!; try done. by constructor.
    + rewrite Hsplit. exists (String c first), rest.
      split_and!; try done.
      * simpl. by rewrite bool_decide_eq_false_2.
      * simpl. by rewrite bool_decide_eq_true_2.
Qed.

(** X21. Whatever the bare string, the derived resource type holds no
    colon and is a prefix of the string, the derived instance key holds no
    colon either, and an instance key is derived exactly when the string
    holds a colon. *)
Theorem bare_resource_parts (s : string) :
  JS.contains ":" (extractResourceType (ResourceString s)) = false
  ∧ Str.startsWith (extractResourceType (ResourceString s)) s = true
  ∧ (∀ k, extractResourceInstanceKey (ResourceString s) = Some k →
          JS.contains ":" k = false)
  ∧ (is_Some (extractResourceInstanceKey (ResourceString s))
     ↔ JS.contains ":" s = true).
Proof.
  unfold extractResourceType, extractResourceInstanceKey.
  destruct (split_parts ":" s)
    as (first & rest & Hsplit & Hfirst & Hrest & Hpre & Hone).
  rewrite Hsplit. simpl.
  destruct (JS.contains ":" s) eqn:Hs.
  - split_and!; try done.
    + destruct rest as [|k rest]; simpl; [done|].
      intros k' [= <-]. by inversion Hrest.
    + destruct rest as [|k rest]; simpl.
      * destruct Hone as [Hone _]. by specialize (Hone eq_refl).
      * split; [done|]. intros _. by eexists.
  - destruct Hone as [_ Hone]. rewrite (Hone eq_refl). simpl.
    assert (s = s +:+ EmptyString) as Hnil.
    { clear. induction s as [|c s IH]; [done|].
      rewrite append_cons. by f_equal. }
    split_and!; try done.
    apply startsWith_iff. by exists EmptyString.
Qed.

(** ** Addresses *)

Lemma scopeIds_hasScope config :
  is_Some (scopeIds config) ↔ MutableConfig.hasScope config = true.
Proof.
  unfold scopeIds, MutableConfig.hasScope.
  destruct (MutableConfig.projectId config) as [p|],
    (MutableConfig.environmentId config) as [e|]; simpl.
  - destruct (_ && _); split; try done; by intros [? ?].
  - rewrite andb_false_r. split; [by intros [? ?]|done].
  - split; [by intros [? ?]|done].
  - split; [by intros [? ?]|done].
Qed.

(** X22. For a fixed configuration [buildPath] never maps two paths to the
    same address, and the private [buildCheckUrl] of the client is the API
    URL followed by the address [buildPath] gives to [/check]. *)
Theorem buildPath_injective
    (this : Permissio.t) (path1 path2 : string) :
  (buildPath (Permissio.config this) path1
   = buildPath (Permissio.config this) path2 → path1 = path2)
  ∧ buildCheckUrl this
    = MutableConfig.apiUrl (Permissio.config this)
      +:+ buildPath (Permissio.config this) "/check".
Proof.
  split.
  - unfold buildPath.
    destruct (scopeIds (Permissio.config this)) as [[p e]|].
    + destruct (Str.startsWith "/schema" path1) eqn:H1,
        (Str.startsWith "/schema" path2) eqn:H2.
      * apply startsWith_iff in H1 as [rest1 ->].
        apply startsWith_iff in H2 as [rest2 ->].
        rewrite !replace_at_start. intros H.
        do 4 apply append_cancel in H. by rewrite H.
      * intros [=].
      * intros [=].
      * intros H. by do 4 apply append_cancel in H.
    + destruct (Str.startsWith "/schema" path1),
        (Str.startsWith "/schema" path2);
        intros H; by apply append_cancel in H.
  - unfold buildCheckUrl, buildBaseUrl, buildPath. simpl.
    destruct (scopeIds (Permissio.config this)) as [[p e]|];
      by rewrite !append_assoc.
Qed.

Lemma buildPath_injective_witness :
  buildPath fullConfig "/schema/roles" = "/v1/schema/proj/env/roles"
  ∧ buildPath fullConfig "/role_assignments"
    = "/v1/facts/proj/env/role_assignments"
  ∧ buildCheckUrl (Permissio.new fullConfig)
    = "https://api.permissio.io/v1/facts/proj/env/check".
Proof.
  split; [reflexivity|]. split; [reflexivity|].
  exact (proj2 (buildPath_injective (Permissio.new fullConfig)
                  EmptyString EmptyString)).
Defined.

(** X23. After [ensureScope] has returned on a fresh instance, the two
    list requests of a check are addressed inside the partition of the ids
    the instance then holds when it holds both, and at the unscoped
    addresses under [/v1] otherwise; the latter happens, without any error,
    when nothing was configured and the scope endpoint answers without
    ids. *)
Theorem list_addresses_after_scope
    (w : World) (config : MutableConfig.t) (calls : list Call) :
  let this' := instance (ensureScope w (Permissio.new config) calls) in
  outcome (ensureScope w (Permissio.new config) calls) = Returned tt →
  match scopeIds (Permissio.config this') with
  | Some (p, e) =>
      buildPath (Permissio.config this') "/role_assignments"
      = "/v1/facts/" +:+ p +:+ "/" +:+ e +:+ "/role_assignments"
      ∧ buildPath (Permissio.config this') "/schema/roles"
        = "/v1/schema/" +:+ p +:+ "/" +:+ e +:+ "/roles"
  | None =>
      buildPath (Permissio.config this') "/role_assignments"
      = "/v1/role_assignments"
      ∧ buildPath (Permissio.config this') "/schema/roles"
        = "/v1/schema/roles"
      ∧ ∃ scope,
          apiKeyScope w = inr scope
          ∧ (JS.truthy (MutableConfig.projectId config) = false
             ∧ JS.truthy (IApiKeyScope.project_id scope) = false
             ∨ JS.truthy (MutableConfig.environmentId config) = false
               ∧ JS.truthy (IApiKeyScope.environment_id scope) = false)
  end.
Proof.
  intros this' Hreturned.
  destruct (scopeIds (Permissio.config this')) as [[p e]|] eqn:Hids.
  - unfold buildPath. rewrite Hids. split; [done|].
    change "/schema/roles" with ("/schema" +:+ "/roles").
    rewrite replace_at_start. done.
  - unfold buildPath. rewrite Hids. simpl. split_and!; [done..|].
    assert (MutableConfig.hasScope (Permissio.config this') = false) as Hno.
    { destruct (MutableConfig.hasScope _) eqn:Hhas; [|done].
      apply scopeIds_hasScope in Hhas as [? Hhas]. congruence. }
    subst this'. revert Hreturned Hno.
    unfold ensureScope, ensureScope_entry. simpl.
    destruct (MutableConfig.hasScope config) eqn:Hhas; simpl; [congruence|].
    unfold fetchAndSetScope_settle.
    destruct (apiKeyScope w) as [error|scope]; simpl.
    + rewrite Hhas. simpl. done.
    + intros _ Hno. exists scope. split; [done|].
      revert Hno. unfold MutableConfig.hasScope, MutableConfig.updateScope.
      destruct config as [t a p e d ti h r th]. simpl.
      destruct (JS.truthy (IApiKeyScope.project_id scope)) eqn:Hp',
        (JS.truthy p) eqn:Hp,
        (JS.truthy (IApiKeyScope.environment_id scope)) eqn:He',
        (JS.truthy e) eqn:He;
        unfold MutableConfig.setProjectId, MutableConfig.setEnvironmentId;
        repeat (progress (simpl; rewrite ?Hp, ?He, ?Hp', ?He'));
        intros; auto; done.
Qed.

Lemma list_addresses_after_scope_witness :
  buildPath
    (Permissio.config
       (instance (ensureScope exampleWorld (Permissio.new exampleConfig) [])))
    "/schema/roles"
  = "/v1/schema/proj/env/roles"
  ∧ buildPath
      (Permissio.config
         (instance
            (ensureScope unscopedWorld (Permissio.new exampleConfig) [])))
      "/schema/roles"
    = "/v1/schema/roles".
Proof.
  split.
  - exact (proj2 (list_addresses_after_scope exampleWorld exampleConfig []
                    eq_refl)).
  - exact (proj1 (proj2 (list_addresses_after_scope unscopedWorld
                           exampleConfig [] eq_refl))).
Defined.

(** ** The HTTP layer *)

Lemma retryDelay_bounds (retryCount : nat) :
  1 ≤ retryCount →
  (2000 ≤ retryDelay retryCount ≤ 10000)%Z
  ∧ (4 ≤ retryCount → retryDelay retryCount = 10000%Z).
Proof.
  intros Hone. unfold retryDelay.
  assert (2 ^ 1 ≤ 2 ^ Z.of_nat retryCount)%Z as Hpow
    by (apply Z.pow_le_mono_r; lia).
  split; [lia|]. intros Hfour.
  assert (2 ^ 4 ≤ 2 ^ Z.of_nat retryCount)%Z as Hpow4
    by (apply Z.pow_le_mono_r; lia).
  lia.
Qed.

(** X24. What [handleError] decides for a failed request. It retries only
    a failure that carries a response with one of the statuses 408, 429,
    500, 502, 503, 504 and only while fewer than [retryAttempts] retries
    were made: the new retry count is between 1 and [retryAttempts], and the
    wait before the retry is between 2 and 10 seconds, 10 seconds from the
    fourth retry on. Otherwise it rejects with an error whose code is never
    absent or empty; a failure without response (a network error) is never
    retried and is rejected with status 0. *)
Theorem handleError_decision (retryAttempts : nat) (error : AxiosError.t) :
  match handleError retryAttempts error with
  | Retry retryCount delay =>
      1 ≤ retryCount ≤ retryAttempts
      ∧ (∃ response,
           AxiosError.response error = Some response
           ∧ AxiosError.status response ∈ retryableStatuses)
      ∧ (2000 ≤ delay ≤ 10000)%Z
      ∧ (4 ≤ retryCount → delay = 10000%Z)
  | Reject apiError =>
      (∃ code, IApiError.code apiError = Some code ∧ code ≠ EmptyString)
      ∧ (∀ response,
           AxiosError.response error = Some response →
           IApiError.statusCode apiError = AxiosError.status response)
  end
  ∧ (AxiosError.response error = None →
     ∃ apiError,
       handleError retryAttempts error = Reject apiError
       ∧ IApiError.statusCode apiError = 0%Z
       ∧ (IApiError.code apiError = Some "NETWORK_ERROR"
          ∨ IApiError.code apiError = Some "REQUEST_SETUP_ERROR")).
Proof.
  unfold handleError, shouldRetry, transformError. split.
  - destruct (AxiosError.config error) as [retryCount|]; simpl.
    + destruct (AxiosError.response error) as [response|]; simpl.
      * case_bool_decide as Hcount; simpl.
        -- case_bool_decide as Hstatus; simpl.
           ++ destruct (retryDelay_bounds (default 0 retryCount + 1))
                as [Hdelay Hcap]; [lia|].
              split_and!; try lia; try done; eauto.
           ++ split; [|by intros ? [= <-]].
              eexists. split; [done|]. unfold orElse.
              destruct (_ ≫= _) as [c|]; [|done].
              by case_bool_decide.
        -- split; [|by intros ? [= <-]].
           eexists. split; [done|]. unfold orElse.
           destruct (_ ≫= _) as [c|]; [|done].
           by case_bool_decide.
      * rewrite andb_false_r.
        destruct (AxiosError.request error); simpl; split; try done; eauto.
    + destruct (AxiosError.response error) as [response|]; simpl.
      * split; [|by intros ? [= <-]].
        eexists. split; [done|]. unfold orElse.
        destruct (_ ≫= _) as [c|]; [|done].
        by case_bool_decide.
      * destruct (AxiosError.request error); simpl; split; try done; eauto.
  - intros ->.
    destruct (AxiosError.config error) as [retryCount|]; simpl;
      rewrite ?andb_false_r;
      destruct (AxiosError.request error); simpl; eauto 10.
Qed.

(** ** Role assignment lists *)



(** ** The role table *)

(** X26. When the fetched role list names a key more than once, the table
    holds the last role of that key, and a key the list does not name is
    not in the table. *)
Theorem buildRolesMap_last_wins (roles : list IRoleRead.t) (roleKey : string) :
  buildRolesMap roles !! roleKey
  = last (filter (λ role, IRoleRead.key role = roleKey) roles).
Proof.
  induction roles as [|role roles IH] using rev_ind; [done|].
  unfold buildRolesMap in *. rewrite foldl_snoc, filter_app, lookup_insert.
  case_decide as Hkey.
  - rewrite filter_cons_True by done. rewrite filter_nil. by rewrite last_snoc.
  - rewrite filter_cons_False by done. rewrite filter_nil, app_nil_r.
    exact IH.
Qed.
